(** * Hospital MVP: the store and the domain operations of [hospital_mvp.py]

    The program keeps four SQLite tables (patients, appointments,
    consultations, invoices) and runs one or two SQL statements per
    operation.  The store is embedded as four finite maps keyed by rowid,
    each with its [sqlite_sequence] counter; every operation is written in a
    small cursor monad that threads the store and the cursor's [lastrowid],
    statement by statement, as the Python functions do.

    Outside the model: the capacity of the store (disk full, rowid
    exhaustion at 2^63-1), I/O failures, and the rounding of [REAL]
    arithmetic; amounts range over an arbitrary carrier [real] with the
    store's addition [radd] and its zero [rzero]. *)

From stdpp Require Import gmap strings list fin_maps sorting.
From Stdlib Require Import QArith.

Local Open Scope Z_scope.

(** ** SQL values *)

(** A [TEXT] column, or a Python [str]-or-[None] argument: [None] is NULL. *)
Definition text : Type := option string.

(** SQL [a || b]: NULL as soon as one operand is NULL. *)
Definition sql_concat (a b : text) : text :=
  match a, b with
  | Some x, Some y => Some (x +:+ y)
  | _, _ => None
  end.

(** The order of [ORDER BY] on a [TEXT] column: NULL sorts before every
    string, strings compare bytewise (collation BINARY). *)
Definition text_le (a b : text) : Prop :=
  match a, b with
  | None, _ => True
  | Some _, None => False
  | Some x, Some y => String.le x y
  end.

Global Instance text_le_dec : RelDecision text_le.
Proof. intros [x|] [y|]; simpl; apply _. Defined.

(** ** Tables with [INTEGER PRIMARY KEY AUTOINCREMENT] *)

(** The rows by rowid, and the table's entry in [sqlite_sequence]: the
    largest rowid the table ever held. *)
Record table (R : Type) : Type := Table { rows : gmap Z R; seq : Z }.
Global Arguments Table {R} _ _.
Global Arguments rows {R} _.
Global Arguments seq {R} _.

Definition empty_table {R} : table R := Table ∅ 0.

Definition max_opt (k : Z) (acc : option Z) : option Z :=
  Some (match acc with None => k | Some a => Z.max k a end).

(** Largest rowid present, [None] on an empty table. *)
Definition max_rowid {R} (m : gmap Z R) : option Z :=
  foldr max_opt None (map_to_list m).*1.

(** The rowid an AUTOINCREMENT insert picks: one past the largest rowid
    present (1 on an empty table), and at least one past the sequence. *)
Definition new_rowid {R} (t : table R) : Z :=
  Z.max (match max_rowid (rows t) with None => 1 | Some m => m + 1 end)
        (seq t + 1).

Definition insert_row {R} (r : R) (t : table R) : Z * table R :=
  let k := new_rowid t in (k, Table (<[k := r]> (rows t)) k).

(** Rows compared through a sort key. *)
Definition by_key {A K} (le : relation K) (key : A → K) : relation A :=
  λ x y, le (key x) (key y).

Global Instance by_key_dec {A K} (le : relation K) `{!RelDecision le}
  (key : A → K) : RelDecision (by_key le key).
Proof. intros x y. unfold by_key. apply _. Defined.

(** Table scan in rowid order. *)
Definition scan {R} (t : table R) : list (Z * R) :=
  merge_sort (by_key Z.le fst) (map_to_list (rows t)).

(** [ORDER BY key DESC] over an intermediate result, as SQLite's sorter
    does it: rows with equal keys stay in the order in which they
    arrive.  A row goes in front of the first row whose key is not
    larger than its own. *)
Fixpoint insert_desc {A K} (le : relation K) `{!RelDecision le}
    (key : A → K) (x : A) (l : list A) : list A :=
  match l with
  | [] => [x]
  | y :: l' =>
      if decide (le (key y) (key x)) then x :: y :: l'
      else y :: insert_desc le key x l'
  end.

Definition order_by_desc {A K} (le : relation K) `{!RelDecision le}
    (key : A → K) (l : list A) : list A :=
  foldr (insert_desc le key) [] l.

(** [WHERE id = k] over a table, and [fetchone()] on a result set. *)
Definition where_id {R} (k : Z) (t : table R) : list (Z * R) :=
  filter (λ r, r.1 = k) (scan t).

Definition fetchone {A} (l : list A) : option A := head l.

(** [COUNT( * )]. *)
Definition sql_count {R} (t : table R) : Z := Z.of_nat (size (rows t)).

(** ** Errors and results *)

Inductive exn : Type := TypeError.

Inductive result (A : Type) : Type :=
| Ok (a : A)
| Raise (e : exn).
Global Arguments Ok {A} _.
Global Arguments Raise {A} _.

(** ** Rows *)

Record patient : Type := Patient {
  first_name : text; last_name : text; dob : text; phone : text; notes : text }.

Record appointment : Type := Appointment {
  a_patient_id : Z; a_doctor : text; a_datetime : text; a_reason : text;
  a_status : text }.

Record consultation : Type := Consultation {
  c_appointment_id : Z; c_patient_id : Z; c_doctor : text; c_notes : text;
  c_prescription : text; c_created_at : text }.

Definition set_status (v : text) (a : appointment) : appointment :=
  Appointment (a_patient_id a) (a_doctor a) (a_datetime a) (a_reason a) v.

Section Store.

Context {real : Type}.
Variable radd : real → real → real.
Variable rzero : real.

(** [paid INTEGER DEFAULT 0]: whatever integer the column holds. *)
Record invoice : Type := Invoice {
  i_patient_id : Z; i_appointment_id : Z; i_amount : option real;
  i_issued_at : text; i_paid : Z }.

Definition set_paid (v : Z) (i : invoice) : invoice :=
  Invoice (i_patient_id i) (i_appointment_id i) (i_amount i) (i_issued_at i) v.

Record store : Type := Store {
  patients : table patient;
  appointments : table appointment;
  consultations : table consultation;
  invoices : table invoice }.

(** [init_db]: the four [CREATE TABLE IF NOT EXISTS] on the store file; a
    file that already holds the tables is left as it is. *)
Definition empty_store : store :=
  Store empty_table empty_table empty_table empty_table.

Definition init_db (file : option store) : store :=
  match file with Some s => s | None => empty_store end.

(** ** The cursor monad *)

(** What a connection with its cursor [c] carries between statements: the
    store, and [c.lastrowid], which only an INSERT sets. *)
Record cursor : Type := Cursor { db : store; lastrowid : option Z }.

Definition M (A : Type) : Type := cursor → result (A * cursor).

Global Instance M_ret : MRet M := λ A a c, Ok (a, c).

Global Instance M_bind : MBind M := λ A B k m c,
  match m c with
  | Ok (a, c') => k a c'
  | Raise e => Raise e
  end.

Definition raise {A} (e : exn) : M A := λ _, Raise e.

(** [conn = get_conn(); c = conn.cursor(); ...; conn.commit(); conn.close()]:
    a fresh cursor on the store; what was written is kept when the body
    returns, and an exception leaves the store as it was. *)
Definition with_conn {A} (m : M A) (s : store) : result (A * store) :=
  match m (Cursor s None) with
  | Ok (a, c) => Ok (a, db c)
  | Raise e => Raise e
  end.

Definition get_lastrowid : M (option Z) := λ c, Ok (lastrowid c, c).

(** A SELECT with its fetch: the store and [lastrowid] stay. *)
Definition query {A} (q : store → A) : M A := λ c, Ok (q (db c), c).

(** An INSERT: the store changes and [lastrowid] becomes the new rowid. *)
Definition exec_insert (ins : store → Z * store) : M unit :=
  λ c, let '(k, s) := ins (db c) in Ok (tt, Cursor s (Some k)).

(** An UPDATE: the store changes, [lastrowid] stays.  The sqlite3 module
    updates [lastrowid] after a successful INSERT or REPLACE only and leaves
    it unchanged after any other statement. *)
Definition exec_update (upd : store → store) : M unit :=
  λ c, Ok (tt, Cursor (upd (db c)) (lastrowid c)).

(** [r[0]] on what [fetchone()] returned: a TypeError on [None]. *)
Definition subscript0 {A} (r : option A) : M A :=
  match r with
  | Some a => mret a
  | None => raise TypeError
  end.

(** ** Statements *)

Definition insert_patient (p : patient) (s : store) : Z * store :=
  let '(k, t) := insert_row p (patients s) in
  (k, Store t (appointments s) (consultations s) (invoices s)).

(** [status TEXT DEFAULT 'scheduled'] fills the column the INSERT omits. *)
Definition insert_appointment (patient_id : Z) (doctor dt reason : text)
    (s : store) : Z * store :=
  let a := Appointment patient_id doctor dt reason (Some "scheduled"%string) in
  let '(k, t) := insert_row a (appointments s) in
  (k, Store (patients s) t (consultations s) (invoices s)).

Definition insert_consultation (x : consultation) (s : store) : Z * store :=
  let '(k, t) := insert_row x (consultations s) in
  (k, Store (patients s) (appointments s) t (invoices s)).

(** [paid INTEGER DEFAULT 0] fills the column the INSERT omits. *)
Definition insert_invoice (patient_id appointment_id : Z)
    (amount : option real) (issued_at : text) (s : store) : Z * store :=
  let i := Invoice patient_id appointment_id amount issued_at 0 in
  let '(k, t) := insert_row i (invoices s) in
  (k, Store (patients s) (appointments s) (consultations s) t).

(** [UPDATE appointments SET status='completed' WHERE id=?] *)
Definition update_status_completed (aid : Z) (s : store) : store :=
  Store (patients s)
        (Table (alter (set_status (Some "completed"%string)) aid
                      (rows (appointments s)))
               (seq (appointments s)))
        (consultations s) (invoices s).

(** [UPDATE invoices SET paid=? WHERE id=?] *)
Definition update_paid (v iid : Z) (s : store) : store :=
  Store (patients s) (appointments s) (consultations s)
        (Table (alter (set_paid v) iid (rows (invoices s)))
               (seq (invoices s))).

(** [SELECT id, first_name, last_name, dob, phone FROM patients
     ORDER BY id DESC] *)
Definition select_patients (s : store)
    : list (Z * text * text * text * text) :=
  (λ r, (r.1, first_name r.2, last_name r.2, dob r.2, phone r.2))
    <$> order_by_desc Z.le fst (scan (patients s)).

(** [SELECT id, first_name, last_name, dob, phone, notes FROM patients
     WHERE id=?] *)
Definition select_patient (pid : Z) (s : store)
    : list (Z * text * text * text * text * text) :=
  (λ r, (r.1, first_name r.2, last_name r.2, dob r.2, phone r.2, notes r.2))
    <$> where_id pid (patients s).

(** [p.first_name || ' ' || p.last_name] *)
Definition full_name (p : patient) : text :=
  sql_concat (sql_concat (first_name p) (Some " "%string)) (last_name p).

(** [FROM t x JOIN patients p ON x.patient_id = p.id]: every row of [t],
    in rowid order, paired with every patient whose id it carries. *)
Definition join_patients {R} (patient_id : R → Z) (t : table R) (s : store)
    : list (Z * R * patient) :=
  x ← scan t; (λ p, (x.1, x.2, p.2)) <$> where_id (patient_id x.2) (patients s).

Definition select_appointments (s : store)
    : list (Z * text * text * text * text * text) :=
  order_by_desc text_le (λ r, r.1.1.2)
    ((λ j, let '(id, a, p) := j in
           (id, full_name p, a_doctor a, a_datetime a, a_reason a, a_status a))
       <$> join_patients a_patient_id (appointments s) s).

Definition select_consultations (s : store)
    : list (Z * text * text * text * text) :=
  order_by_desc text_le (λ r, r.1.2)
    ((λ j, let '(id, c, p) := j in
           (id, full_name p, c_doctor c, c_created_at c, c_prescription c))
       <$> join_patients c_patient_id (consultations s) s).

Definition select_invoices (s : store)
    : list (Z * text * option real * text * Z) :=
  order_by_desc text_le (λ r, r.1.2)
    ((λ j, let '(id, i, p) := j in
           (id, full_name p, i_amount i, i_issued_at i, i_paid i))
       <$> join_patients i_patient_id (invoices s) s).

(** [SELECT paid FROM invoices WHERE id=?] *)
Definition select_paid (iid : Z) (s : store) : list Z :=
  (λ r, i_paid r.2) <$> where_id iid (invoices s).

(** [SUM(x)]: the running total starts at zero, NULLs are skipped, and the
    result is NULL when no row contributed. *)
Definition sum_step (acc : nat * real) (v : option real) : nat * real :=
  match v with
  | Some x => (S acc.1, radd acc.2 x)
  | None => acc
  end.

Definition sql_sum (vals : list (option real)) : option real :=
  let acc := foldl sum_step (0%nat, rzero) vals in
  match acc.1 with
  | O => None
  | S _ => Some acc.2
  end.

(** [IFNULL(v, d)] *)
Definition ifnull (v : option real) (d : real) : real :=
  match v with Some x => x | None => d end.

(** [SELECT COUNT( * ), IFNULL(SUM(amount),0) FROM invoices] *)
Definition select_invoice_totals (s : store) : Z * real :=
  (sql_count (invoices s),
   ifnull (sql_sum ((λ r, i_amount r.2) <$> scan (invoices s))) rzero).

(** ** Core operations *)

Definition add_patient (first last dob phone notes : text)
    : store → result (option Z * store) :=
  with_conn (
    exec_insert (insert_patient (Patient first last dob phone notes));;
    pid ← get_lastrowid;
    mret pid).

Definition list_patients
    : store → result (list (Z * text * text * text * text) * store) :=
  with_conn (rows ← query select_patients; mret rows).

Definition get_patient (pid : Z)
    : store → result (option (Z * text * text * text * text * text) * store) :=
  with_conn (r ← query (λ s, fetchone (select_patient pid s)); mret r).

Definition add_appointment (patient_id : Z) (doctor dt_str reason : text)
    : store → result (option Z * store) :=
  with_conn (
    exec_insert (insert_appointment patient_id doctor dt_str reason);;
    aid ← get_lastrowid;
    mret aid).

Definition list_appointments
    : store → result (list (Z * text * text * text * text * text) * store) :=
  with_conn (rows ← query select_appointments; mret rows).

(** [now] is what [datetime.now().isoformat()] returns during the call. *)
Definition add_consultation (appointment_id patient_id : Z)
    (doctor notes prescription : text) (now : string)
    : store → result (option Z * store) :=
  with_conn (
    let created_at := Some now in
    exec_insert (insert_consultation
      (Consultation appointment_id patient_id doctor notes prescription
                    created_at));;
    exec_update (update_status_completed appointment_id);;
    cid ← get_lastrowid;
    mret cid).

Definition list_consultations
    : store → result (list (Z * text * text * text * text) * store) :=
  with_conn (rows ← query select_consultations; mret rows).

Definition generate_invoice (patient_id appointment_id : Z)
    (amount : option real) (now : string)
    : store → result (option Z * store) :=
  with_conn (
    let issued_at := Some now in
    exec_insert (insert_invoice patient_id appointment_id amount issued_at);;
    iid ← get_lastrowid;
    mret iid).

Definition list_invoices
    : store → result (list (Z * text * option real * text * Z) * store) :=
  with_conn (rows ← query select_invoices; mret rows).

(** ** Sample seed *)

Definition seed_sample_data (now1 now2 : string)
    : store → result (unit * store) :=
  with_conn (
    ifc ← query (λ s, sql_count (patients s));
    if bool_decide (ifc > 0) then mret tt
    else
      exec_insert (insert_patient
        (Patient (Some "Alice") (Some "Wong") (Some "1985-04-12")
                 (Some "+441234567890") (Some "Allergic to penicillin")))%string;;
      exec_insert (insert_patient
        (Patient (Some "Bob") (Some "Smith") (Some "1990-11-03")
                 (Some "+447700900123") (Some "Diabetic")))%string;;
      exec_insert (insert_appointment 1 (Some "Dr. Patel"%string) (Some now1)
                                      (Some "Routine checkup"%string));;
      exec_insert (insert_appointment 2 (Some "Dr. Jones"%string) (Some now2)
                                      (Some "Follow-up"%string))).

(** ** Presentation-layer handlers that touch the store *)

(** How a handler ends, and the store it leaves: it returned, or an
    exception escaped it, possibly after a call that committed. *)
Inductive outcome (A : Type) : Type :=
| Returned (a : A) (s : store)
| Raised (e : exn) (s : store).
Global Arguments Returned {A} _ _.
Global Arguments Raised {A} _ _.

Definition left_by {A} (o : outcome A) : store :=
  match o with
  | Returned _ s => s
  | Raised _ s => s
  end.

Definition Handler (A : Type) : Type := store → outcome A.

Global Instance Handler_ret : MRet Handler := λ A a s, Returned a s.

Global Instance Handler_bind : MBind Handler := λ A B k m s,
  match m s with
  | Returned a s' => k a s'
  | Raised e s' => Raised e s'
  end.

(** A call from a handler: what the call committed stays; an exception
    from it leaves the store as the call found it and ends the handler. *)
Definition call {A} (f : store → result (A * store)) : Handler A :=
  λ s, match f s with
       | Ok (a, s') => Returned a s'
       | Raise e => Raised e s
       end.

(** Python truth of an integer. *)
Definition truthy (z : Z) : bool := negb (z =? 0).

(** One row of the invoice tree.  [f"£{amount:.2f}"] raises a TypeError
    when the amount is [None]; the text of an amount is left as the
    amount. *)
Definition render_invoice (r : Z * text * option real * text * Z)
    : result (Z * text * real * text * string) :=
  let '(id_, patient, amount, issued_at, paid) := r in
  match amount with
  | Some x => Ok (id_, patient, x, issued_at,
                  if truthy paid then "Yes" else "No")%string
  | None => Raise TypeError
  end.

Fixpoint render_invoices (l : list (Z * text * option real * text * Z))
    : result (list (Z * text * real * text * string)) :=
  match l with
  | [] => Ok []
  | r :: l' =>
      match render_invoice r with
      | Ok x =>
          match render_invoices l' with
          | Ok xs => Ok (x :: xs)
          | Raise e => Raise e
          end
      | Raise e => Raise e
      end
  end.

(** [HospitalApp.refresh_invoice_list]: the rows it puts into the invoice
    tree. *)
Definition refresh_invoice_list
    : store → result (list (Z * text * real * text * string) * store) :=
  λ s, match list_invoices s with
       | Ok (rows, s') =>
           match render_invoices rows with
           | Ok tree => Ok (tree, s')
           | Raise e => Raise e
           end
       | Raise e => Raise e
       end.

(** [HospitalApp.toggle_invoice_paid]: [sel] holds the invoice ids of the
    selected rows of the invoice tree.  After the commit it refreshes the
    invoice tree and then the dashboard; the latter reads only and never
    raises. *)
Definition toggle_invoice_paid (sel : list Z) : Handler unit :=
  match sel with
  | [] => mret tt
  | iid :: _ =>
      call (with_conn (
        r ← query (λ s, fetchone (select_paid iid s));
        paid ← subscript0 r;
        exec_update (update_paid (if truthy paid then 0 else 1) iid)));;
      call refresh_invoice_list;;
      mret tt
  end.

(** [HospitalApp.refresh_admin]: the five numbers it fetches, in the order
    it prints them (patients, appointments, consultations, invoices,
    revenue). *)
Definition refresh_admin : store → result (Z * Z * Z * Z * real * store) :=
  with_conn (
    patients ← query (λ s, sql_count (patients s));
    appts ← query (λ s, sql_count (appointments s));
    cons ← query (λ s, sql_count (consultations s));
    inv ← query select_invoice_totals;
    mret (patients, appts, cons, inv.1, inv.2)).

(** ** Histories *)

(** The calls that write to the store. *)
Inductive op : Type :=
| AddPatient (first last dob phone notes : text)
| AddAppointment (patient_id : Z) (doctor dt_str reason : text)
| AddConsultation (appointment_id patient_id : Z)
    (doctor notes prescription : text) (now : string)
| GenerateInvoice (patient_id appointment_id : Z) (amount : option real)
    (now : string)
| ToggleInvoicePaid (sel : list Z)
| SeedSampleData (now1 now2 : string).

(** The store a call leaves behind; a call that raises leaves it as it
    was. *)
Definition after {A} (r : result (A * store)) (s : store) : store :=
  match r with
  | Ok (_, s') => s'
  | Raise _ => s
  end.

Definition step (s : store) (o : op) : store :=
  match o with
  | AddPatient f l d ph n => after (add_patient f l d ph n s) s
  | AddAppointment pid doc dt rs => after (add_appointment pid doc dt rs s) s
  | AddConsultation aid pid doc n pr now =>
      after (add_consultation aid pid doc n pr now s) s
  | GenerateInvoice pid aid amt now => after (generate_invoice pid aid amt now s) s
  | ToggleInvoicePaid sel => left_by (toggle_invoice_paid sel s)
  | SeedSampleData n1 n2 => after (seed_sample_data n1 n2 s) s
  end.

Definition run (ops : list op) (s : store) : store := foldl step s ops.

(** ** Vocabulary of the statements *)

(** Every stored paid flag is 0 or 1. *)
Definition paid_flags_ok (s : store) : Prop :=
  ∀ iid inv, rows (invoices s) !! iid = Some inv → i_paid inv = 0 ∨ i_paid inv = 1.

(** Every row [list_invoices] returns has an amount: the invoice tree can
    be filled. *)
Definition invoice_tree_renders (s : store) : Prop :=
  Forall (λ r : Z * text * option real * text * Z, is_Some r.1.1.2)
         (select_invoices s).

(** A handler ended in one of the two ways, leaving [s']. *)
Definition ends_leaving {A} (o : outcome A) (a : A) (e : exn) (s' : store)
    : Prop :=
  o = Returned a s' ∨ o = Raised e s'.

(** The call [o] on [s] brings patient [pid] into the store. *)
Definition inserts_patient (pid : Z) (s : store) (o : op) : Prop :=
  rows (patients s) !! pid = None ∧ is_Some (rows (patients (step s o)) !! pid).

(** The id column of the rows [list_patients] returns. *)
Definition patient_row_id (r : Z * text * text * text * text) : Z := r.1.1.1.1.

(** The id column of the rows the joined listings return. *)
Definition appointment_row_id (r : Z * text * text * text * text * text) : Z :=
  r.1.1.1.1.1.
Definition consultation_row_id (r : Z * text * text * text * text) : Z :=
  r.1.1.1.1.
Definition invoice_row_id (r : Z * text * option real * text * Z) : Z :=
  r.1.1.1.1.

(** The amounts of all invoices, in rowid order; an invoice whose amount
    is NULL has none. *)
Definition invoice_amounts (s : store) : list real :=
  omap (λ r, i_amount r.2) (scan (invoices s)).

(** The arithmetic sum of a sequence of amounts. *)
Definition sum_amounts (l : list real) : real := foldl radd rzero l.

(** [pid] is the id of a patient of the store. *)
Definition references_patient (s : store) (pid : Z) : Prop :=
  is_Some (rows (patients s) !! pid).

(** [ids] are the ids a listing of [t] joined to the patients returns: no
    id twice, and an id is listed exactly when [t] holds a row under it
    whose patient id is that of a patient; so when every row of [t] has a
    patient, the listing has one row per stored row. *)
Definition lists_joined_rows {R} (s : store) (patient_id : R → Z)
    (t : table R) (ids : list Z) : Prop :=
  NoDup ids ∧
  (∀ id, id ∈ ids ↔
     ∃ r, rows t !! id = Some r ∧ references_patient s (patient_id r)) ∧
  (length ids ≤ size (rows t))%nat ∧
  ((∀ id r, rows t !! id = Some r → references_patient s (patient_id r)) →
   ids ≡ₚ (map_to_list (rows t)).*1 ∧ length ids = size (rows t)).

End Store.

(** ** A concrete history *)

(** Amounts as rationals: the seed, a third patient with an appointment, an
    appointment whose patient id names no patient, a consultation, three
    invoices (one without amount) and two toggles, the second on an id the
    store does not hold. *)
Definition demo_history : list (@op Q) :=
  [ SeedSampleData "2024-01-01T10:00:00" "2024-01-01T10:00:01";
    AddPatient (Some "Carol") (Some "Diaz") (Some "1979-02-28") None (Some "");
    AddAppointment 3 (Some "Dr. Smith") (Some "2024-02-01T09:30:00")
                   (Some "Consultation");
    AddAppointment 9 None None (Some "Consultation");
    AddConsultation 3 3 (Some "Dr. Smith") (Some "") (Some "rest")
                    "2024-02-01T10:00:00";
    GenerateInvoice 3 3 (Some (75 # 1)%Q) "2024-02-01T10:05:00";
    GenerateInvoice 3 3 None "2024-02-01T10:06:00";
    GenerateInvoice 1 1 (Some (1 # 2)%Q) "2024-02-01T10:06:00";
    ToggleInvoicePaid [1; 2];
    ToggleInvoicePaid [7] ]%string.

Definition demo_store : @store Q := run demo_history (init_db None).

(** ** Presentation-layer handlers that call the operations *)

Section Handlers.

Context {real : Type}.

(** [str.strip], as the entry fields are read. *)
Variable strip : string → string.

(** Calls on the store one after the other, for the handlers none of
    whose calls raises after a call that wrote. *)
Definition Op (A : Type) : Type := @store real → result (A * @store real).

Global Instance Op_ret : MRet Op := λ A a s, Ok (a, s).

Global Instance Op_bind : MBind Op := λ A B k m s,
  match m s with
  | Ok (a, s') => k a s'
  | Raise e => Raise e
  end.

(** Python's [x or d] on a string-or-[None]: [d] when [x] is [None] or
    empty. *)
Definition py_or (x : text) (d : string) : text :=
  match x with
  | None => Some d
  | Some EmptyString => Some d
  | Some _ => x
  end.

(** What a handler shows: the message boxes by kind. *)
Inductive feedback : Type :=
| Silent
| ValidationError
| AddedInfo (pid : option Z)
| NoPatientsWarning
| NoAppointmentsWarning.

(** [SELECT patient_id FROM appointments WHERE id=?] *)
Definition select_patient_id (aid : Z) (s : @store real) : list Z :=
  (λ r, a_patient_id r.2) <$> where_id aid (appointments s).

(** [HospitalApp.handle_add_patient]: the arguments are the contents of
    the four entry fields. *)
Definition handle_add_patient (fn ln dob phone : string) : Op feedback :=
  let first := strip fn in
  let last := strip ln in
  let dob := strip dob in
  let phone := strip phone in
  if bool_decide (first = EmptyString ∨ last = EmptyString)
  then mret ValidationError
  else
    pid ← add_patient (Some first) (Some last) (Some dob) (Some phone)
                      (Some EmptyString);
    mret (AddedInfo pid).

(** [HospitalApp.new_appointment_dialog]: [doctor], [dt] and [reason] are
    what the three [askstring] dialogs return. *)
Definition new_appointment_dialog (doctor dt reason : text) : Op feedback :=
  patients ← list_patients;
  match patients with
  | [] => mret NoPatientsWarning
  | p :: _ =>
      let pid := patient_row_id p in
      add_appointment pid doctor dt (py_or reason "Consultation");;
      mret Silent
  end.

(** [HospitalApp.open_appointment_actions]: [sel] holds the values of the
    selected rows of the appointment tree, [confirm] is the answer to
    [askyesno], [notes] and [presc] are what the [askstring] dialogs
    return. *)
Definition open_appointment_actions
    (sel : list (Z * text * text * text * text * text)) (confirm : bool)
    (notes presc : text) (now : string) : Op feedback :=
  match sel with
  | [] => mret Silent
  | row :: _ =>
      let '(aid, patient, doctor, dt, reason, status) := row in
      if confirm then
        pid ← with_conn (r ← query (λ s, fetchone (select_patient_id aid s));
                         subscript0 r);
        add_consultation aid pid doctor (py_or notes "") (py_or presc "") now;;
        mret Silent
      else mret Silent
  end.

(** [HospitalApp.create_invoice_dialog]: [amount] is what [askfloat]
    returns.  After the invoice is committed it refreshes the invoice tree
    and then the dashboard; the latter reads only and never raises. *)
Definition create_invoice_dialog (amount : option real) (now : string)
    : Handler feedback :=
  appts ← call list_appointments;
  match appts with
  | [] => mret NoAppointmentsWarning
  | a :: _ =>
      let aid := appointment_row_id a in
      pid ← call (with_conn (
                r ← query (λ s, fetchone (select_patient_id aid s));
                subscript0 r));
      call (generate_invoice pid aid amount now);;
      call refresh_invoice_list;;
      mret Silent
  end.

(** What the user can do to the store: start the program (which seeds an
    empty store) and trigger the handlers. *)
Inductive ui_op : Type :=
| Launch (now1 now2 : string)
| HandleAddPatient (fn ln dob phone : string)
| NewAppointmentDialog (doctor dt reason : text)
| OpenAppointmentActions
    (sel : list (Z * text * text * text * text * text)) (confirm : bool)
    (notes presc : text) (now : string)
| CreateInvoiceDialog (amount : option real) (now : string)
| DoubleClickInvoice (sel : list Z).

Definition ui_step (s : @store real) (u : ui_op) : @store real :=
  match u with
  | Launch n1 n2 => after (seed_sample_data n1 n2 s) s
  | HandleAddPatient fn ln dob phone =>
      after (handle_add_patient fn ln dob phone s) s
  | NewAppointmentDialog doctor dt reason =>
      after (new_appointment_dialog doctor dt reason s) s
  | OpenAppointmentActions sel confirm notes presc now =>
      after (open_appointment_actions sel confirm notes presc now s) s
  | CreateInvoiceDialog amount now => left_by (create_invoice_dialog amount now s)
  | DoubleClickInvoice sel => left_by (toggle_invoice_paid sel s)
  end.

Definition ui_run (us : list ui_op) (s : @store real) : @store real :=
  foldl ui_step s us.

(** *** Vocabulary of the statements about histories *)

(** The rowids of [t] are exactly 1, ..., n, with n both the number of
    rows and the table's sequence. *)
Definition sequential {R} (t : table R) : Prop :=
  Z.of_nat (size (rows t)) = seq t ∧
  ∀ k, is_Some (rows t !! k) ↔ 1 ≤ k ≤ seq t.

(** Every reference of the store leads somewhere: an appointment to a
    patient, a consultation and an invoice to an appointment of the same
    patient, and an appointment with a consultation is completed. *)
Definition referentially_sound (s : @store real) : Prop :=
  (∀ aid a, rows (appointments s) !! aid = Some a →
     references_patient s (a_patient_id a)) ∧
  (∀ cid c, rows (consultations s) !! cid = Some c →
     ∃ a, rows (appointments s) !! c_appointment_id c = Some a ∧
          a_patient_id a = c_patient_id c ∧
          a_status a = Some "completed"%string) ∧
  (∀ iid i, rows (invoices s) !! iid = Some i →
     ∃ a, rows (appointments s) !! i_appointment_id i = Some a ∧
          a_patient_id a = i_patient_id i).

(** What a call can do to a table: nothing, one insert, two inserts, or
    an update of one row in place. *)
Definition grows {R} (t t' : table R) : Prop :=
  t' = t ∨
  (∃ r, t' = (insert_row r t).2) ∨
  (∃ r1 r2, t' = (insert_row r2 (insert_row r1 t).2).2) ∨
  (∃ f k, t' = Table (alter f k (rows t)) (seq t)).

(** The store the seed leaves when it finds no patient. *)
Definition seeded (n1 n2 : string) (s : @store real) : @store real :=
  (insert_appointment 2 (Some "Dr. Jones") (Some n2) (Some "Follow-up")
    (insert_appointment 1 (Some "Dr. Patel") (Some n1) (Some "Routine checkup")
      (insert_patient
         (Patient (Some "Bob") (Some "Smith") (Some "1990-11-03")
                  (Some "+447700900123") (Some "Diabetic"))
         (insert_patient
            (Patient (Some "Alice") (Some "Wong") (Some "1985-04-12")
                     (Some "+441234567890")
                     (Some "Allergic to penicillin")) s).2).2).2).2%string.

(** Every patient has a first and a last name, neither NULL nor empty. *)
Definition patients_named (s : @store real) : Prop :=
  ∀ pid p, rows (patients s) !! pid = Some p →
    ∃ f l, first_name p = Some f ∧ last_name p = Some l ∧
           f ≠ EmptyString ∧ l ≠ EmptyString.

(** Every appointment is scheduled or completed, and a completed one has
    a consultation recorded against it. *)
Definition statuses_sound (s : @store real) : Prop :=
  ∀ aid a, rows (appointments s) !! aid = Some a →
    (a_status a = Some "scheduled"%string ∨ a_status a = Some "completed"%string) ∧
    (a_status a = Some "completed"%string →
       ∃ cid c, rows (consultations s) !! cid = Some c ∧
                c_appointment_id c = aid).

End Handlers.

(** ** A concrete history of the presentation layer *)

(** A first launch, two uses of the patient form (the second without a
    first name), an appointment, a consultation on it, an invoice and a
    double click on it; the fields are taken as typed. *)
Definition demo_ui_history : list (@ui_op Q) :=
  [ Launch "2024-01-01T10:00:00" "2024-01-01T10:00:01";
    HandleAddPatient "Carol" "Diaz" "1979-02-28" "";
    HandleAddPatient "" "Evans" "" "";
    NewAppointmentDialog (Some "Dr. Smith") (Some "2024-02-01T09:30:00") None;
    OpenAppointmentActions
      [ (3, Some "Carol Diaz", Some "Dr. Smith", Some "2024-02-01T09:30:00",
         Some "Consultation", Some "scheduled") ]
      true None (Some "rest") "2024-02-01T10:00:00";
    CreateInvoiceDialog (Some (75 # 1)%Q) "2024-02-01T10:05:00";
    DoubleClickInvoice [1] ]%string.

Definition demo_ui_store : @store Q :=
  ui_run (λ x, x) demo_ui_history (init_db None).

(** * Properties *)

(** ** Rowids *)

Section Tables.

Context {R : Type}.
Implicit Types (t : table R) (m : gmap Z R) (k : Z) (r : R).

Lemma foldr_max_opt_ge (l : list Z) k :
  k ∈ l → ∃ top, foldr max_opt None l = Some top ∧ k ≤ top.
Proof.
  induction l as [|x l IH]; intros Hin; [by apply elem_of_nil in Hin|].
  apply elem_of_cons in Hin as [->|Hin]; simpl.
  - destruct (foldr max_opt None l); eexists; (split; [done|lia]).
  - destruct (IH Hin) as (top & -> & Hle). simpl.
    eexists; split; [done|lia].
Qed.

Lemma max_rowid_ge m k r :
  m !! k = Some r → ∃ top, max_rowid m = Some top ∧ k ≤ top.
Proof.
  intros Hk. apply foldr_max_opt_ge.
  apply list_elem_of_fmap. exists (k, r). split; [done|].
  by apply elem_of_map_to_list.
Qed.

Lemma new_rowid_above_rows t k r : rows t !! k = Some r → k < new_rowid t.
Proof.
  intros Hk. unfold new_rowid.
  destruct (max_rowid_ge _ _ _ Hk) as (top & -> & Hle). lia.
Qed.

Lemma new_rowid_above_seq t : seq t < new_rowid t.
Proof. unfold new_rowid. lia. Qed.

Lemma new_rowid_fresh t : rows t !! new_rowid t = None.
Proof.
  destruct (rows t !! new_rowid t) as [r|] eqn:Hk; [|done].
  apply new_rowid_above_rows in Hk. lia.
Qed.

(** ** Scans *)

Lemma scan_perm t : scan t ≡ₚ map_to_list (rows t).
Proof. apply merge_sort_Permutation. Qed.

Lemma elem_of_scan t k r : (k, r) ∈ scan t ↔ rows t !! k = Some r.
Proof. rewrite scan_perm. apply elem_of_map_to_list. Qed.

Lemma NoDup_fst_scan t : NoDup (scan t).*1.
Proof. rewrite scan_perm. apply NoDup_fst_map_to_list. Qed.

Lemma length_scan t : length (scan t) = size (rows t).
Proof. rewrite scan_perm. by rewrite length_map_to_list. Qed.

Lemma filter_key_absent (l : list (Z * R)) k :
  k ∉ l.*1 → filter (λ x, x.1 = k) l = [].
Proof.
  induction l as [|[j r] l IH]; [done|]. simpl. intros Hk.
  apply not_elem_of_cons in Hk as [Hne Hk].
  rewrite filter_cons_False; [by apply IH|]. simpl. congruence.
Qed.

Lemma filter_key_present (l : list (Z * R)) k r :
  NoDup l.*1 → (k, r) ∈ l → filter (λ x, x.1 = k) l = [(k, r)].
Proof.
  induction l as [|[j q] l IH]; intros Hnd Hin; [by apply elem_of_nil in Hin|].
  simpl in Hnd. apply NoDup_cons in Hnd as [Hj Hnd].
  apply elem_of_cons in Hin as [Heq|Hin].
  - inversion Heq; subst j q. rewrite filter_cons_True; [|done].
    by rewrite filter_key_absent.
  - rewrite filter_cons_False; [by apply IH|]. simpl. intros ->.
    apply Hj. apply list_elem_of_fmap. by exists (k, r).
Qed.

(** [WHERE id = k] on a keyed table is the lookup of [k]. *)
Lemma where_id_lookup t k :
  where_id k t = match rows t !! k with Some r => [(k, r)] | None => [] end.
Proof.
  unfold where_id. destruct (rows t !! k) as [r|] eqn:Hk.
  - apply filter_key_present; [apply NoDup_fst_scan|by apply elem_of_scan].
  - apply filter_key_absent. intros Hin.
    apply list_elem_of_fmap in Hin as ([j r] & -> & Hin).
    apply elem_of_scan in Hin. simpl in Hk. congruence.
Qed.

End Tables.

(** ** What each operation computes *)

Section Operations.

Context {real : Type}.
Implicit Types (s : @store real) (k : Z).

Lemma add_patient_eq first last dob phone notes s :
  add_patient first last dob phone notes s =
  Ok (Some (new_rowid (patients s)),
      (insert_patient (Patient first last dob phone notes) s).2).
Proof. reflexivity. Qed.

Lemma add_appointment_eq pid doctor dt reason s :
  add_appointment pid doctor dt reason s =
  Ok (Some (new_rowid (appointments s)),
      (insert_appointment pid doctor dt reason s).2).
Proof. reflexivity. Qed.

Lemma add_consultation_eq aid pid doctor notes presc now s :
  add_consultation aid pid doctor notes presc now s =
  Ok (Some (new_rowid (consultations s)),
      update_status_completed aid
        (insert_consultation
           (Consultation aid pid doctor notes presc (Some now)) s).2).
Proof. reflexivity. Qed.

Lemma generate_invoice_eq pid aid amount now s :
  generate_invoice pid aid amount now s =
  Ok (Some (new_rowid (invoices s)),
      (insert_invoice pid aid amount (Some now) s).2).
Proof. reflexivity. Qed.

(** C1: [add_consultation] returns the rowid of the consultation row it
    inserted: the id is new to the table, lies above every rowid the table
    held and above its sequence, and the table afterwards is the table
    before with the new consultation stored under that id.  The UPDATE
    that runs between the INSERT and the read of [lastrowid] does not
    disturb it. *)
Theorem add_consultation_returns_inserted_id
    (s : @store real) (aid pid : Z) (doctor notes presc : text) (now : string) :
  ∃ cid s',
    add_consultation aid pid doctor notes presc now s = Ok (Some cid, s') ∧
    rows (consultations s) !! cid = None ∧
    (∀ j, is_Some (rows (consultations s) !! j) → j < cid) ∧
    seq (consultations s) < cid ∧
    rows (consultations s') =
      <[cid := Consultation aid pid doctor notes presc (Some now)]>
        (rows (consultations s)) ∧
    seq (consultations s') = cid.
Proof.
  eexists _, _. split; [apply add_consultation_eq|]. simpl.
  split; [apply new_rowid_fresh|].
  split; [intros j [r Hr]; by eapply new_rowid_above_rows|].
  split; [apply new_rowid_above_seq|done].
Qed.

(** C2: whatever the state, if appointment [a] is in the store then after
    [add_consultation a ...] its row is the row it was with status
    "completed"; the prior status and the consultations already recorded
    play no part. *)
Theorem add_consultation_completes_appointment
    (s : @store real) (a pid : Z) (doctor notes presc : text) (now : string)
    (row : appointment) :
  rows (appointments s) !! a = Some row →
  ∃ cid s',
    add_consultation a pid doctor notes presc now s = Ok (cid, s') ∧
    rows (appointments s') !! a = Some (set_status (Some "completed"%string) row) ∧
    a_status <$> rows (appointments s') !! a = Some (Some "completed"%string).
Proof.
  intros Hrow. eexists _, _. split; [apply add_consultation_eq|]. simpl.
  rewrite lookup_alter_eq, Hrow. done.
Qed.

(** C3: [add_consultation a ...] leaves every appointment other than [a] as
    it was, keeps the appointment ids and the appointments' sequence, and
    leaves the patients and invoices tables untouched. *)
Theorem add_consultation_frame
    (s : @store real) (a pid : Z) (doctor notes presc : text) (now : string)
    (a' : Z) :
  a' ≠ a →
  ∃ cid s',
    add_consultation a pid doctor notes presc now s = Ok (cid, s') ∧
    rows (appointments s') !! a' = rows (appointments s) !! a' ∧
    dom (rows (appointments s')) = dom (rows (appointments s)) ∧
    seq (appointments s') = seq (appointments s) ∧
    patients s' = patients s ∧
    invoices s' = invoices s.
Proof.
  intros Hne. eexists _, _. split; [apply add_consultation_eq|]. simpl.
  split; [by apply lookup_alter_ne|].
  split; [apply dom_alter_L|done].
Qed.

(** ** The paid flag *)

Lemma select_paid_lookup iid s :
  fetchone (select_paid iid s) = i_paid <$> rows (invoices s) !! iid.
Proof.
  unfold select_paid. rewrite where_id_lookup.
  by destruct (rows (invoices s) !! iid).
Qed.

(** Filling the invoice tree fails exactly when a listed invoice has no
    amount, and writes nothing. *)
Lemma render_invoices_cases (l : list (Z * text * option real * text * Z)) :
  (Forall (λ r, is_Some r.1.1.2) l ∧ ∃ tree, render_invoices l = Ok tree) ∨
  (¬ Forall (λ r, is_Some r.1.1.2) l ∧ render_invoices l = Raise TypeError).
Proof.
  induction l as [|[[[[id_ patient] amount] issued] paid] l IH].
  { left. split; [constructor|by eexists]. }
  simpl. destruct amount as [x|].
  - destruct IH as [[Hall [tree ->]] | [Hnot ->]].
    + left. split; [|by eexists]. constructor; [by eexists|done].
    + right. split; [|done]. by intros [_ Hall]%Forall_cons.
  - right. split; [|done]. intros [[x Hx] _]%Forall_cons. discriminate.
Qed.

Lemma refresh_invoice_list_cases s :
  (invoice_tree_renders s ∧ ∃ tree, refresh_invoice_list s = Ok (tree, s)) ∨
  (¬ invoice_tree_renders s ∧ refresh_invoice_list s = Raise TypeError).
Proof.
  unfold refresh_invoice_list, invoice_tree_renders.
  change (list_invoices s) with (Ok (select_invoices s, s)).
  destruct (render_invoices_cases (select_invoices s))
    as [[Hall [tree ->]] | [Hnot ->]]; [left|right]; eauto.
Qed.

(** A call of the invoice tree's refresh from a handler keeps the store. *)
Lemma call_refresh_invoice_list s :
  (invoice_tree_renders s ∧
   ∃ tree, call refresh_invoice_list s = Returned tree s) ∨
  (¬ invoice_tree_renders s ∧
   call refresh_invoice_list s = Raised TypeError s).
Proof.
  unfold call.
  destruct (refresh_invoice_list_cases s) as [[Hr [tree ->]] | [Hr ->]];
    [left|right]; eauto.
Qed.

Lemma toggle_invoice_paid_eq iid sel s inv :
  rows (invoices s) !! iid = Some inv →
  toggle_invoice_paid (iid :: sel) s =
  match call refresh_invoice_list
          (update_paid (if truthy (i_paid inv) then 0 else 1) iid s) with
  | Returned _ s' => Returned tt s'
  | Raised e s' => Raised e s'
  end.
Proof.
  intros Hinv. unfold toggle_invoice_paid, mbind, Handler_bind.
  unfold call at 1, with_conn, mbind, M_bind, query. simpl.
  rewrite select_paid_lookup, Hinv. reflexivity.
Qed.

Lemma toggle_invoice_paid_outcome iid sel s inv :
  rows (invoices s) !! iid = Some inv →
  let s' := update_paid (if truthy (i_paid inv) then 0 else 1) iid s in
  (invoice_tree_renders s' ∧ toggle_invoice_paid (iid :: sel) s = Returned tt s') ∨
  (¬ invoice_tree_renders s' ∧
   toggle_invoice_paid (iid :: sel) s = Raised TypeError s').
Proof.
  intros Hinv s'. rewrite (toggle_invoice_paid_eq iid sel s inv Hinv). fold s'.
  destruct (call_refresh_invoice_list s') as [[Hr [tree ->]] | [Hr ->]];
    [left|right]; done.
Qed.

Lemma toggle_invoice_paid_present iid sel s inv :
  rows (invoices s) !! iid = Some inv →
  left_by (toggle_invoice_paid (iid :: sel) s) =
  update_paid (if truthy (i_paid inv) then 0 else 1) iid s.
Proof.
  intros Hinv.
  by destruct (toggle_invoice_paid_outcome iid sel s inv Hinv)
    as [[_ ->] | [_ ->]].
Qed.

Lemma toggle_invoice_paid_absent iid sel s :
  rows (invoices s) !! iid = None →
  toggle_invoice_paid (iid :: sel) s = Raised TypeError s.
Proof.
  intros Hinv. unfold toggle_invoice_paid, mbind, Handler_bind.
  unfold call at 1, with_conn, mbind, M_bind, query. simpl.
  rewrite select_paid_lookup, Hinv. reflexivity.
Qed.

Lemma update_paid_restore iid v s inv :
  rows (invoices s) !! iid = Some inv →
  update_paid (i_paid inv) iid (update_paid v iid s) = s.
Proof.
  intros Hinv. destruct s as [ps aps cs [m q]]. unfold update_paid; simpl in *.
  do 2 f_equal. apply map_eq. intros j. destruct (decide (j = iid)) as [->|Hne].
  - rewrite !lookup_alter_eq, Hinv. simpl. f_equal. by destruct inv.
  - by rewrite !lookup_alter_ne.
Qed.

Lemma toggle_twice iid sel s inv :
  rows (invoices s) !! iid = Some inv →
  i_paid inv = 0 ∨ i_paid inv = 1 →
  ∃ s2,
    ends_leaving (toggle_invoice_paid (iid :: sel) s) tt TypeError s2 ∧
    i_paid <$> rows (invoices s2) !! iid = Some (1 - i_paid inv) ∧
    ends_leaving (toggle_invoice_paid (iid :: sel) s2) tt TypeError s.
Proof.
  intros Hinv Hpaid.
  set (v := if truthy (i_paid inv) then 0 else 1).
  set (s2 := update_paid v iid s). exists s2.
  assert (Hinv2 : rows (invoices s2) !! iid = Some (set_paid v inv))
    by (simpl; by rewrite lookup_alter_eq, Hinv).
  assert (Hback : update_paid (if truthy (i_paid (set_paid v inv)) then 0 else 1)
                              iid s2 = s).
  { simpl. replace (if truthy v then 0 else 1) with (i_paid inv)
      by (unfold v; by destruct Hpaid as [-> | ->]).
    by apply update_paid_restore. }
  split; [|split].
  - destruct (toggle_invoice_paid_outcome iid sel s inv Hinv)
      as [[_ H] | [_ H]]; [left|right]; exact H.
  - rewrite Hinv2. simpl. unfold v. by destruct Hpaid as [-> | ->].
  - destruct (toggle_invoice_paid_outcome iid sel s2 _ Hinv2)
      as [[_ H] | [_ H]]; rewrite Hback in H; [left|right]; exact H.
Qed.

Lemma ends_leaving_left_by {A} (o : outcome A) (a : A) (e : exn) s' :
  ends_leaving o a e s' → left_by o = s'.
Proof. by intros [-> | ->]. Qed.

(** ** Histories *)

Lemma seed_sample_data_cases n1 n2 s :
  seed_sample_data n1 n2 s = Ok (tt, s) ∨
  seed_sample_data n1 n2 s =
    Ok (tt,
        (insert_appointment 2 (Some "Dr. Jones") (Some n2) (Some "Follow-up")
          (insert_appointment 1 (Some "Dr. Patel") (Some n1)
                              (Some "Routine checkup")
            (insert_patient
               (Patient (Some "Bob") (Some "Smith") (Some "1990-11-03")
                        (Some "+447700900123") (Some "Diabetic"))
               (insert_patient
                  (Patient (Some "Alice") (Some "Wong") (Some "1985-04-12")
                           (Some "+441234567890")
                           (Some "Allergic to penicillin")) s).2).2).2).2)%string.
Proof.
  unfold seed_sample_data, with_conn, mbind, M_bind, query. simpl.
  destruct (bool_decide (sql_count (patients s) > 0)); [by left|by right].
Qed.

Lemma run_app ops1 ops2 s : run (ops1 ++ ops2) s = run ops2 (run ops1 s).
Proof. apply foldl_app. Qed.

Lemma run_invariant (P : @store real → Prop) ops s :
  (∀ s o, P s → P (step s o)) → P s → P (run ops s).
Proof.
  intros Hstep. revert s. induction ops as [|o ops IH]; intros s Hs; [done|].
  simpl. apply IH. by apply Hstep.
Qed.

Lemma step_invoices_cases s o :
  invoices (step s o) = invoices s ∨
  (∃ pid aid amount issued,
     invoices (step s o) = (insert_row (Invoice pid aid amount issued 0)
                                       (invoices s)).2) ∨
  (∃ iid inv v, rows (invoices s) !! iid = Some inv ∧ (v = 0 ∨ v = 1) ∧
     invoices (step s o) =
       Table (alter (set_paid v) iid (rows (invoices s))) (seq (invoices s))).
Proof.
  destruct o as [f l d ph n|pid doc dt rs|aid pid doc n pr now|pid aid amt now
                |sel|n1 n2]; simpl; try by left.
  - right; left. by eexists _, _, _, _.
  - destruct sel as [|iid sel]; [by left|].
    destruct (rows (invoices s) !! iid) as [inv|] eqn:Hinv.
    + right; right. rewrite (toggle_invoice_paid_present _ _ _ _ Hinv). simpl.
      eexists _, _, _. split; [done|]. split; [|done].
      destruct (truthy (i_paid inv)); auto.
    + left. by rewrite (toggle_invoice_paid_absent _ _ _ Hinv).
  - left. by destruct (seed_sample_data_cases n1 n2 s) as [-> | ->].
Qed.

Lemma step_paid_flags_ok s o : paid_flags_ok s → paid_flags_ok (step s o).
Proof.
  intros Hs iid inv.
  destruct (step_invoices_cases s o)
    as [-> | [(pid & aid & amt & iss & ->) | (j & inv' & v & Hj & Hv & ->)]];
    simpl.
  - apply Hs.
  - intros [[_ <-] | [_ Hin]]%lookup_insert_Some; [by left|by eapply Hs].
  - destruct (decide (iid = j)) as [->|Hne].
    + rewrite lookup_alter_eq, Hj. simpl. by intros [= <-].
    + rewrite lookup_alter_ne by done. apply Hs.
Qed.

Lemma run_paid_flags_ok (ops : list (@op real)) :
  paid_flags_ok (run ops (init_db None)).
Proof.
  apply run_invariant; [apply step_paid_flags_ok|].
  intros iid inv. simpl. by rewrite lookup_empty.
Qed.

(** C4: a newly generated invoice has paid = 0; one toggle on its id
    leaves a store in which it is 1 and a second one leaves the store the
    first one found, so the flag is 0 again.  And for every invoice held
    by a store that a history of calls built from the empty store,
    toggling flips the flag and toggling twice leaves the very same
    store.  Each toggle either returns or, when its closing refresh of the
    invoice tree meets an invoice without amount, raises a TypeError after
    the commit; the store it leaves is the same in both cases. *)
Theorem invoice_toggle_involutive
    (s : @store real) (pid aid : Z) (amount : option real) (now : string) :
  (∃ iid s1 s2,
     generate_invoice pid aid amount now s = Ok (Some iid, s1) ∧
     i_paid <$> rows (invoices s1) !! iid = Some 0 ∧
     ends_leaving (toggle_invoice_paid [iid] s1) tt TypeError s2 ∧
     i_paid <$> rows (invoices s2) !! iid = Some 1 ∧
     ends_leaving (toggle_invoice_paid [iid] s2) tt TypeError s1) ∧
  (∀ (ops : list (@op real)) (iid : Z) (sel : list Z) (inv : invoice),
     rows (invoices (run ops (init_db None))) !! iid = Some inv →
     ∃ s2,
       ends_leaving (toggle_invoice_paid (iid :: sel) (run ops (init_db None)))
                    tt TypeError s2 ∧
       i_paid <$> rows (invoices s2) !! iid = Some (1 - i_paid inv) ∧
       ends_leaving (toggle_invoice_paid (iid :: sel) s2) tt TypeError
                    (run ops (init_db None))).
Proof.
  split.
  - set (s1 := (insert_invoice pid aid amount (Some now) s).2).
    assert (Hnew : rows (invoices s1) !! new_rowid (invoices s)
                   = Some (Invoice pid aid amount (Some now) 0))
      by (simpl; apply lookup_insert_eq).
    destruct (toggle_twice _ [] _ _ Hnew) as (s2 & Ht1 & Hp & Ht2); [by left|].
    exists (new_rowid (invoices s)), s1, s2.
    split; [apply generate_invoice_eq|].
    split; [by rewrite Hnew|]. done.
  - intros ops iid sel inv Hinv. apply toggle_twice; [done|].
    by eapply run_paid_flags_ok.
Qed.

(** C9: in every store that a history of domain operations and paid
    toggles builds from the empty store, the paid flag of every invoice is
    0 or 1. *)
Theorem reachable_paid_flag_boolean
    (ops : list (@op real)) (iid : Z) (inv : invoice) :
  rows (invoices (run ops (init_db None))) !! iid = Some inv →
  i_paid inv = 0 ∨ i_paid inv = 1.
Proof. apply run_paid_flags_ok. Qed.

(** ** Patient ids *)

Lemma insert_row_persist {R} (x : R) (t : table R) k r :
  rows t !! k = Some r → rows (insert_row x t).2 !! k = Some r.
Proof.
  intros Hk. simpl. rewrite lookup_insert_ne; [done|].
  apply new_rowid_above_rows in Hk. lia.
Qed.

Lemma step_patients_persist s o k p :
  rows (patients s) !! k = Some p → rows (patients (step s o)) !! k = Some p.
Proof.
  intros Hk.
  destruct o as [f l d ph n|pid doc dt rs|aid pid doc n pr now|pid aid amt now
                |sel|n1 n2]; simpl; try done.
  - by apply (insert_row_persist _ (patients s)).
  - destruct sel as [|iid sel]; [done|].
    destruct (rows (invoices s) !! iid) as [inv|] eqn:Hinv.
    + by rewrite (toggle_invoice_paid_present _ _ _ _ Hinv).
    + by rewrite (toggle_invoice_paid_absent _ _ _ Hinv).
  - destruct (seed_sample_data_cases n1 n2 s) as [-> | ->]; [done|].
    cbn [after snd insert_appointment insert_patient patients].
    by do 2 apply insert_row_persist.
Qed.

Lemma run_patients_persist ops s k p :
  rows (patients s) !! k = Some p → rows (patients (run ops s)) !! k = Some p.
Proof.
  revert s. induction ops as [|o ops IH]; intros s Hk; [done|].
  simpl. apply IH. by apply step_patients_persist.
Qed.

(** C8: take any history on a store and any id [k] that was a patient id
    at some earlier point of it.  The next [add_patient], whatever names it
    is given, returns an id strictly above [k] and above the table's
    sequence, and stores the new patient under it: no id is handed out
    twice. *)
Theorem add_patient_id_strictly_increasing
    (s0 : @store real) (ops1 ops2 : list (@op real)) (k : Z)
    (first last dob phone notes : text) :
  is_Some (rows (patients (run ops1 s0)) !! k) →
  ∃ pid s',
    add_patient first last dob phone notes (run (ops1 ++ ops2) s0)
      = Ok (Some pid, s') ∧
    k < pid ∧
    seq (patients (run (ops1 ++ ops2) s0)) < pid ∧
    rows (patients (run (ops1 ++ ops2) s0)) !! pid = None ∧
    rows (patients s') !! pid = Some (Patient first last dob phone notes) ∧
    seq (patients s') = pid.
Proof.
  intros [p Hk]. eexists _, _. split; [apply add_patient_eq|]. simpl.
  split.
  { eapply new_rowid_above_rows. rewrite run_app.
    by apply run_patients_persist. }
  split; [apply new_rowid_above_seq|].
  split; [apply new_rowid_fresh|].
  split; [apply lookup_insert_eq|done].
Qed.

(** ** Looking a patient up *)

Lemma get_patient_eq pid s :
  get_patient pid s =
  Ok (match rows (patients s) !! pid with
      | Some p => Some (pid, first_name p, last_name p, dob p, phone p, notes p)
      | None => None
      end, s).
Proof.
  unfold get_patient, with_conn, mbind, M_bind, query, select_patient. simpl.
  rewrite where_id_lookup. by destruct (rows (patients s) !! pid).
Qed.

(** C6: [get_patient] never raises and leaves the store as it is.  When
    the store holds a patient under the id it returns the full record,
    notes included; when it holds none it returns [None]; and after a
    history from the empty store none of whose calls inserted a patient
    under that id, it returns [None]. *)
Theorem get_patient_found_or_absent (s : @store real) (pid : Z) :
  (∀ p, rows (patients s) !! pid = Some p →
     get_patient pid s =
     Ok (Some (pid, first_name p, last_name p, dob p, phone p, notes p), s)) ∧
  (rows (patients s) !! pid = None → get_patient pid s = Ok (None, s)) ∧
  (∀ ops : list (@op real),
     (∀ ops1 o ops2, ops = ops1 ++ o :: ops2 →
        ¬ inserts_patient pid (run ops1 (init_db None)) o) →
     get_patient pid (run ops (init_db None)) = Ok (None, run ops (init_db None))).
Proof.
  split; [|split].
  - intros p Hp. by rewrite get_patient_eq, Hp.
  - intros Hp. by rewrite get_patient_eq, Hp.
  - intros ops Hnever. rewrite get_patient_eq.
    enough (rows (patients (run ops (init_db None))) !! pid = None) as -> by done.
    induction ops as [|o ops IH] using rev_ind; [apply lookup_empty|].
    assert (Hpre : rows (patients (run ops (init_db None))) !! pid = None).
    { apply IH. intros ops1 o' ops2 ->. apply (Hnever ops1 o' (ops2 ++ [o])).
      by rewrite <- app_assoc. }
    rewrite run_app. simpl.
    destruct (rows (patients (step _ o)) !! pid) as [p|] eqn:Hpost; [|done].
    exfalso. apply (Hnever ops o []); [done|]. split; [done|].
    simpl. rewrite Hpost. by eexists.
Qed.

End Operations.

(** ** Sorted result sets *)

Section Sorting.

Context {A : Type} (key : A → Z).
Implicit Types (l : list A).

Global Instance by_key_le_total : Total (by_key Z.le key).
Proof. intros x y. unfold by_key. lia. Qed.

Global Instance by_key_le_trans : Transitive (by_key Z.le key).
Proof. intros x y z. unfold by_key. lia. Qed.

Global Instance by_key_ge_total : Total (by_key (flip Z.le) key).
Proof. intros x y. unfold by_key, flip. lia. Qed.

Global Instance by_key_ge_trans : Transitive (by_key (flip Z.le) key).
Proof. intros x y z. unfold by_key, flip. lia. Qed.

(** A list sorted on a key without repetition is strictly sorted. *)
Lemma sorted_strict (weak strict : relation Z) l :
  (∀ a b, weak a b → a ≠ b → strict a b) →
  NoDup (key <$> l) →
  StronglySorted (by_key weak key) l → StronglySorted (by_key strict key) l.
Proof.
  intros Hstrict. induction l as [|x l IH]; intros Hnd Hs; [constructor|].
  rewrite fmap_cons in Hnd. apply NoDup_cons in Hnd as [Hx Hnd].
  apply StronglySorted_cons in Hs as [Hall Hs].
  apply StronglySorted_cons. split; [|by apply IH].
  rewrite Forall_forall in Hall |- *. intros y Hy.
  apply Hstrict; [by apply Hall|]. intros Heq. apply Hx. rewrite Heq.
  apply list_elem_of_fmap. by exists y.
Qed.

Lemma strictly_sorted_unique (strict : relation Z) l1 l2 :
  (∀ a b, strict a b → strict b a → False) →
  StronglySorted (by_key strict key) l1 →
  StronglySorted (by_key strict key) l2 →
  l1 ≡ₚ l2 → l1 = l2.
Proof.
  intros Hasym. apply StronglySorted_unique_strong.
  intros x1 x2 _ _ H12 H21. destruct (Hasym _ _ H12 H21).
Qed.

Lemma insert_desc_perm {K} (le : relation K) `{!RelDecision le}
    (k : A → K) x l :
  insert_desc le k x l ≡ₚ x :: l.
Proof.
  induction l as [|y l IH]; [done|]. simpl. case_decide; [done|].
  rewrite IH. apply Permutation_swap.
Qed.

Lemma order_by_desc_perm {K} (le : relation K) `{!RelDecision le}
    (k : A → K) l :
  order_by_desc le k l ≡ₚ l.
Proof.
  induction l as [|x l IH]; [done|]. unfold order_by_desc in *. simpl.
  by rewrite insert_desc_perm, IH.
Qed.

(** The sort of [ORDER BY ... DESC] is stable.  Rows that arrive in
    ascending order of [key] come out so that a row is followed only by
    rows whose sort key is not larger, and among these only by rows of a
    larger [key] when the sort key is equal. *)
Lemma insert_desc_stable {K} (le : relation K)
    `{!RelDecision le, !Total le, !Transitive le} (k : A → K) x l :
  (∀ y, y ∈ l → key x < key y) →
  StronglySorted (λ a b, le (k b) (k a) ∧ (le (k a) (k b) → key a < key b)) l →
  StronglySorted (λ a b, le (k b) (k a) ∧ (le (k a) (k b) → key a < key b))
                 (insert_desc le k x l).
Proof.
  induction l as [|y l IH]; intros Hx Hs; simpl.
  { repeat constructor. }
  apply StronglySorted_cons in Hs as [Hy Hs]. case_decide as Hle.
  - apply StronglySorted_cons. split; [|by apply StronglySorted_cons].
    apply Forall_cons. split; [split; [done|intros _; apply Hx; left]|].
    rewrite Forall_forall in Hy |- *. intros z Hz.
    destruct (Hy z Hz) as [Hzy _]. split; [by etrans|].
    intros _. apply Hx. by right.
  - apply StronglySorted_cons. split.
    + rewrite insert_desc_perm. apply Forall_cons. split; [|done].
      split; [|done]. by destruct (total le (k x) (k y)).
    + apply IH; [|done]. intros z Hz. apply Hx. by right.
Qed.

Lemma order_by_desc_stable {K} (le : relation K)
    `{!RelDecision le, !Total le, !Transitive le} (k : A → K) l :
  StronglySorted (by_key Z.lt key) l →
  StronglySorted (λ a b, le (k b) (k a) ∧ (le (k a) (k b) → key a < key b))
                 (order_by_desc le k l).
Proof.
  induction l as [|x l IH]; intros Hs; [constructor|].
  apply StronglySorted_cons in Hs as [Hx Hs].
  unfold order_by_desc in *. simpl. apply insert_desc_stable; try done.
  - intros y Hy.
    pose proof (order_by_desc_perm le k l) as Hp. unfold order_by_desc in Hp.
    rewrite Hp in Hy. rewrite Forall_forall in Hx. by apply Hx.
  - by apply IH.
Qed.

Lemma insert_desc_sorted {K} (le : relation K)
    `{!RelDecision le, !Total le, !Transitive le} (k : A → K) x l :
  StronglySorted (by_key (flip le) k) l →
  StronglySorted (by_key (flip le) k) (insert_desc le k x l).
Proof.
  induction l as [|y l IH]; intros Hs; simpl.
  { repeat constructor. }
  apply StronglySorted_cons in Hs as [Hy Hs]. case_decide as Hle.
  - apply StronglySorted_cons. split; [|by apply StronglySorted_cons].
    apply Forall_cons. split; [done|].
    rewrite Forall_forall in Hy |- *. intros z Hz.
    unfold by_key, flip in *. etrans; [by apply Hy|done].
  - apply StronglySorted_cons. split; [|by apply IH].
    rewrite insert_desc_perm. apply Forall_cons. split; [|done].
    unfold by_key, flip. by destruct (total le (k x) (k y)).
Qed.

Lemma order_by_desc_sorted {K} (le : relation K)
    `{!RelDecision le, !Total le, !Transitive le} (k : A → K) l :
  StronglySorted (by_key (flip le) k) (order_by_desc le k l).
Proof.
  induction l as [|x l IH]; [constructor|].
  unfold order_by_desc in *. simpl. by apply insert_desc_sorted.
Qed.

Lemma order_by_desc_strict l :
  NoDup (key <$> l) →
  StronglySorted (by_key (flip Z.lt) key) (order_by_desc Z.le key l).
Proof.
  intros Hnd. apply (sorted_strict (flip Z.le)).
  - unfold flip. lia.
  - by rewrite order_by_desc_perm.
  - apply order_by_desc_sorted; apply _.
Qed.

End Sorting.

Section Scans.

Context {R : Type}.
Implicit Types (t : table R).

Lemma scan_strict t : StronglySorted (by_key Z.lt fst) (scan t).
Proof.
  apply (sorted_strict fst Z.le).
  - lia.
  - apply NoDup_fst_scan.
  - apply StronglySorted_merge_sort; apply _.
Qed.

Lemma scan_insert_perm (r : R) t :
  scan (insert_row r t).2 ≡ₚ (new_rowid t, r) :: scan t.
Proof.
  rewrite !scan_perm. simpl. apply map_to_list_insert, new_rowid_fresh.
Qed.


(** The row an insert adds is the first one [ORDER BY id DESC] returns. *)
Lemma order_by_desc_scan_insert (r : R) t :
  order_by_desc Z.le fst (scan (insert_row r t).2) =
  (new_rowid t, r) :: order_by_desc Z.le fst (scan t).
Proof.
  apply (strictly_sorted_unique fst (flip Z.lt)); [unfold flip; lia| | |].
  - apply order_by_desc_strict, NoDup_fst_scan.
  - apply StronglySorted_cons. split.
    + apply Forall_forall. intros [j x] Hj. unfold by_key, flip. simpl.
      rewrite order_by_desc_perm in Hj. apply elem_of_scan in Hj.
      by eapply new_rowid_above_rows.
    + apply order_by_desc_strict, NoDup_fst_scan.
  - rewrite !order_by_desc_perm. apply scan_insert_perm.
Qed.

End Scans.

(** ** Listings and the dashboard *)

Section Listings.

Context {real : Type}.
Variable radd : real → real → real.
Variable rzero : real.
Implicit Types (s : @store real).

Lemma list_patients_eq s : list_patients s = Ok (select_patients s, s).
Proof. reflexivity. Qed.

Lemma select_patients_insert (p : patient) s :
  select_patients (insert_patient p s).2 =
  (new_rowid (patients s), first_name p, last_name p, dob p, phone p)
    :: select_patients s.
Proof.
  unfold select_patients.
  change (patients (insert_patient p s).2) with (insert_row p (patients s)).2.
  by rewrite order_by_desc_scan_insert.
Qed.

(** C7: [list_patients] returns, without touching the store, one tuple
    (id, first name, last name, dob, phone) per stored patient and nothing
    else, in strictly descending order of id; and right after
    [add_patient] the new patient's tuple is the head of the listing, the
    rest being the listing as it was. *)
Theorem list_patients_newest_first (s : @store real) :
  ∃ l,
    list_patients s = Ok (l, s) ∧
    (∀ row, row ∈ l ↔
       ∃ id p, rows (patients s) !! id = Some p ∧
               row = (id, first_name p, last_name p, dob p, phone p)) ∧
    StronglySorted (λ x y, patient_row_id y < patient_row_id x) l ∧
    length l = size (rows (patients s)) ∧
    (∀ first last dob phone notes,
       ∃ pid s',
         add_patient first last dob phone notes s = Ok (Some pid, s') ∧
         list_patients s' = Ok ((pid, first, last, dob, phone) :: l, s')).
Proof.
  exists (select_patients s). split; [done|]. split; [|split; [|split]].
  - intros row. unfold select_patients. rewrite list_elem_of_fmap. split.
    + intros ([id p] & -> & Hin). rewrite order_by_desc_perm in Hin.
      apply elem_of_scan in Hin. by exists id, p.
    + intros (id & p & Hp & ->). exists (id, p). split; [done|].
      rewrite order_by_desc_perm. by apply elem_of_scan.
  - unfold select_patients.
    eapply StronglySorted_fmap; [|apply (order_by_desc_strict fst), NoDup_fst_scan].
    intros x y Hxy. exact Hxy.
  - unfold select_patients.
    by rewrite length_fmap, order_by_desc_perm, length_scan.
  - intros first last dob phone notes. eexists _, _.
    split; [apply add_patient_eq|].
    by rewrite list_patients_eq, select_patients_insert.
Qed.

(** *** The revenue total *)

Lemma sum_step_total {X} (f : X → option real) (l : list X)
    (n : nat) (a : real) :
  foldl (sum_step radd) (n, a) (f <$> l) =
  ((n + length (omap f l))%nat, foldl radd a (omap f l)).
Proof.
  revert n a. induction l as [|x l IH]; intros n a; csimpl.
  - f_equal. lia.
  - destruct (f x) as [v|]; csimpl; rewrite IH; csimpl; f_equal; lia.
Qed.

Lemma select_invoice_totals_eq s :
  select_invoice_totals radd rzero s =
  (Z.of_nat (size (rows (invoices s))),
   sum_amounts radd rzero (invoice_amounts s)).
Proof.
  unfold select_invoice_totals, sql_sum, sum_amounts, invoice_amounts, sql_count.
  f_equal. rewrite sum_step_total. simpl.
  by destruct (omap _ (scan (invoices s))).
Qed.

Lemma refresh_admin_eq s :
  refresh_admin radd rzero s =
  Ok (Z.of_nat (size (rows (patients s))),
      Z.of_nat (size (rows (appointments s))),
      Z.of_nat (size (rows (consultations s))),
      Z.of_nat (size (rows (invoices s))),
      sum_amounts radd rzero (invoice_amounts s), s).
Proof.
  transitivity
    (Ok (sql_count (patients s), sql_count (appointments s),
         sql_count (consultations s),
         (select_invoice_totals radd rzero s).1,
         (select_invoice_totals radd rzero s).2, s)); [reflexivity|].
  by rewrite select_invoice_totals_eq.
Qed.



(** *** The joins *)

Lemma NoDup_fst_filter {R} (P : Z * R → Prop) `{!∀ x, Decision (P x)}
    (l : list (Z * R)) :
  NoDup l.*1 → NoDup (filter P l).*1.
Proof.
  induction l as [|x l IH]; [done|]. rewrite fmap_cons.
  intros [Hx Hnd]%NoDup_cons. destruct (decide (P x)).
  - rewrite filter_cons_True by done. rewrite fmap_cons.
    apply NoDup_cons. split; [|by apply IH].
    intros (y & Hy & [_ Hin]%list_elem_of_filter)%list_elem_of_fmap.
    apply Hx. apply list_elem_of_fmap. by exists y.
  - rewrite filter_cons_False by done. by apply IH.
Qed.

Lemma filter_all {X} (P : X → Prop) `{!∀ x, Decision (P x)} (l : list X) :
  (∀ x, x ∈ l → P x) → filter P l = l.
Proof.
  induction l as [|x l IH]; intros Hall; [done|].
  rewrite filter_cons_True by (apply Hall; left).
  f_equal. apply IH. intros y Hy. apply Hall. by right.
Qed.

(** The join pairs a row with the patient stored under its patient id,
    and drops the row when there is none. *)
Lemma join_patients_lookup {R} (patient_id : R → Z) (t : table R) s :
  join_patients patient_id t s =
  omap (λ x, (λ p, (x.1, x.2, p)) <$> rows (patients s) !! patient_id x.2)
       (scan t).
Proof.
  unfold join_patients. induction (scan t) as [|x l IH]; [done|].
  csimpl. rewrite IH, where_id_lookup.
  by destruct (rows (patients s) !! patient_id x.2).
Qed.

Lemma join_patients_ids {R} (patient_id : R → Z) (t : table R) s :
  (λ j : Z * R * patient, j.1.1) <$> join_patients patient_id t s =
  (filter (λ x, is_Some (rows (patients s) !! patient_id x.2)) (scan t)).*1.
Proof.
  rewrite join_patients_lookup. induction (scan t) as [|x l IH]; [done|].
  csimpl. destruct (rows (patients s) !! patient_id x.2) as [p|] eqn:Hp; csimpl.
  - rewrite filter_cons_True by (rewrite Hp; by eexists). csimpl.
    by rewrite IH.
  - rewrite filter_cons_False by (rewrite Hp; by intros [? ?]). done.
Qed.

Lemma lists_joined_rows_intro {R} (patient_id : R → Z) (t : table R) s ids :
  ids ≡ₚ (filter (λ x, is_Some (rows (patients s) !! patient_id x.2))
                 (scan t)).*1 →
  lists_joined_rows s patient_id t ids.
Proof.
  intros Hids. split; [|split; [|split]].
  - rewrite Hids. apply NoDup_fst_filter, NoDup_fst_scan.
  - intros id. rewrite Hids, list_elem_of_fmap. split.
    + intros ([j r] & -> & [Hp Hin]%list_elem_of_filter).
      apply elem_of_scan in Hin. by exists r.
    + intros (r & Hr & Hp). exists (id, r). split; [done|].
      apply list_elem_of_filter. split; [done|]. by apply elem_of_scan.
  - rewrite Hids, length_fmap, <- length_scan. apply length_filter.
  - intros Hall. rewrite Hids, filter_all.
    + split; [by rewrite scan_perm|by rewrite length_fmap, length_scan].
    + intros [j r] Hin. apply elem_of_scan in Hin. by eapply Hall.
Qed.

(** A permutation goal that holds because the two lists are equal. *)
Ltac perm_by_eq :=
  match goal with |- ?a ≡ₚ ?b => enough (a = b) as -> by done end.

Lemma list_appointments_joined s :
  ∃ l, list_appointments s = Ok (l, s) ∧
       lists_joined_rows s a_patient_id (appointments s) (appointment_row_id <$> l).
Proof.
  exists (select_appointments s). split; [done|].
  apply lists_joined_rows_intro. unfold select_appointments.
  rewrite order_by_desc_perm, <- list_fmap_compose, <- join_patients_ids.
  perm_by_eq. apply list_fmap_ext. by intros _ [[id a] p] _.
Qed.

Lemma list_consultations_joined s :
  ∃ l, list_consultations s = Ok (l, s) ∧
       lists_joined_rows s c_patient_id (consultations s)
                         (consultation_row_id <$> l).
Proof.
  exists (select_consultations s). split; [done|].
  apply lists_joined_rows_intro. unfold select_consultations.
  rewrite order_by_desc_perm, <- list_fmap_compose, <- join_patients_ids.
  perm_by_eq. apply list_fmap_ext. by intros _ [[id c] p] _.
Qed.

Lemma list_invoices_joined s :
  ∃ l, list_invoices s = Ok (l, s) ∧
       lists_joined_rows s i_patient_id (invoices s) (invoice_row_id <$> l).
Proof.
  exists (select_invoices s). split; [done|].
  apply lists_joined_rows_intro. unfold select_invoices.
  rewrite order_by_desc_perm, <- list_fmap_compose, <- join_patients_ids.
  perm_by_eq. apply list_fmap_ext. by intros _ [[id i] p] _.
Qed.

(** C10: the three joined listings leave the store as it is and return,
    each id once, exactly the rows whose patient id is the id of a stored
    patient: a row without such a patient is left out, although the
    dashboard counts every stored row; and when every row of a table has a
    patient, the listing has one row per stored row. *)
Theorem listings_inner_join_patients (s : @store real) :
  ∃ la lc li np na nc ni total,
    list_appointments s = Ok (la, s) ∧
    list_consultations s = Ok (lc, s) ∧
    list_invoices s = Ok (li, s) ∧
    refresh_admin radd rzero s = Ok (np, na, nc, ni, total, s) ∧
    lists_joined_rows s a_patient_id (appointments s) (appointment_row_id <$> la) ∧
    lists_joined_rows s c_patient_id (consultations s) (consultation_row_id <$> lc) ∧
    lists_joined_rows s i_patient_id (invoices s) (invoice_row_id <$> li) ∧
    na = Z.of_nat (size (rows (appointments s))) ∧
    nc = Z.of_nat (size (rows (consultations s))) ∧
    ni = Z.of_nat (size (rows (invoices s))).
Proof.
  destruct (list_appointments_joined s) as (la & Hla & Ja).
  destruct (list_consultations_joined s) as (lc & Hlc & Jc).
  destruct (list_invoices_joined s) as (li & Hli & Ji).
  exists la, lc, li. eexists _, _, _, _, _.
  split; [done|]. split; [done|]. split; [done|].
  split; [apply refresh_admin_eq|]. done.
Qed.

End Listings.

(** * The operations on a concrete history *)

Section Demo.

Local Open Scope string_scope.

Example demo_list_patients :
  list_patients demo_store =
  Ok ([ (3, Some "Carol", Some "Diaz", Some "1979-02-28", None);
        (2, Some "Bob", Some "Smith", Some "1990-11-03", Some "+447700900123");
        (1, Some "Alice", Some "Wong", Some "1985-04-12", Some "+441234567890") ],
      demo_store).
Proof. vm_compute. reflexivity. Qed.

(** Appointment 4 names patient 9, who does not exist: the listing leaves
    it out and the dashboard counts it. *)
Example demo_list_appointments :
  list_appointments demo_store =
  Ok ([ (3, Some "Carol Diaz", Some "Dr. Smith", Some "2024-02-01T09:30:00",
         Some "Consultation", Some "completed");
        (2, Some "Bob Smith", Some "Dr. Jones", Some "2024-01-01T10:00:01",
         Some "Follow-up", Some "scheduled");
        (1, Some "Alice Wong", Some "Dr. Patel", Some "2024-01-01T10:00:00",
         Some "Routine checkup", Some "scheduled") ],
      demo_store).
Proof. vm_compute. reflexivity. Qed.

Example demo_list_invoices :
  list_invoices demo_store =
  Ok ([ (2, Some "Carol Diaz", None, Some "2024-02-01T10:06:00", 0);
        (3, Some "Alice Wong", Some (1 # 2)%Q, Some "2024-02-01T10:06:00", 0);
        (1, Some "Carol Diaz", Some (75 # 1)%Q, Some "2024-02-01T10:05:00", 1) ],
      demo_store).
Proof. vm_compute. reflexivity. Qed.

Example demo_refresh_admin :
  refresh_admin Qplus 0%Q demo_store = Ok (3, 4, 1, 3, (151 # 2)%Q, demo_store).
Proof. vm_compute. reflexivity. Qed.

Example demo_refresh_admin_empty :
  refresh_admin Qplus 0%Q (init_db None) = Ok (0, 0, 0, 0, 0%Q, init_db None).
Proof. vm_compute. reflexivity. Qed.

Example demo_get_patient_absent :
  get_patient 7 demo_store = Ok (None, demo_store).
Proof. vm_compute. reflexivity. Qed.

Example demo_toggle_unknown_id :
  toggle_invoice_paid [7] demo_store = Raised TypeError demo_store.
Proof. vm_compute. reflexivity. Qed.

(** Outside the stores the program builds, a flag other than 0 and 1 is
    not restored by two toggles: 5 becomes 0, then 1. *)
Example toggle_twice_from_5 :
  let s := Store empty_table empty_table empty_table
                 (Table {[ 1 := Invoice 1 1 (Some 1%Q) None 5 ]} 1) in
  ∃ s2 s3,
    left_by (toggle_invoice_paid [1] s) = s2 ∧
    left_by (toggle_invoice_paid [1] s2) = s3 ∧
    i_paid <$> rows (invoices s3) !! 1 = Some 1.
Proof. eexists _, _. vm_compute. done. Qed.

End Demo.

(** * Instances of the statements that carry a hypothesis *)

Lemma add_consultation_completes_appointment_witness :
  rows (appointments demo_store) !! 1
    = Some (Appointment 1 (Some "Dr. Patel") (Some "2024-01-01T10:00:00")
                        (Some "Routine checkup") (Some "scheduled"))%string ∧
  ∃ cid s',
    add_consultation 1 1 (Some "Dr. Patel"%string) None None
                     "2024-03-01T08:00:00" demo_store = Ok (cid, s') ∧
    rows (appointments s') !! 1
      = Some (set_status (Some "completed"%string)
                (Appointment 1 (Some "Dr. Patel") (Some "2024-01-01T10:00:00")
                             (Some "Routine checkup") (Some "scheduled"))%string) ∧
    a_status <$> rows (appointments s') !! 1 = Some (Some "completed"%string).
Proof.
  split; [vm_compute; reflexivity|].
  apply add_consultation_completes_appointment. vm_compute. reflexivity.
Defined.

Lemma add_consultation_frame_witness :
  2 ≠ 1 ∧
  ∃ cid s',
    add_consultation 1 1 (Some "Dr. Patel"%string) None None
                     "2024-03-01T08:00:00" demo_store = Ok (cid, s') ∧
    rows (appointments s') !! 2 = rows (appointments demo_store) !! 2 ∧
    dom (rows (appointments s')) = dom (rows (appointments demo_store)) ∧
    seq (appointments s') = seq (appointments demo_store) ∧
    patients s' = patients demo_store ∧
    invoices s' = invoices demo_store.
Proof.
  split; [lia|]. apply add_consultation_frame. lia.
Defined.

Lemma invoice_toggle_involutive_witness :
  is_Some (rows (invoices demo_store) !! 1) ∧
  ∃ s2,
    ends_leaving (toggle_invoice_paid [1] demo_store) tt TypeError s2 ∧
    i_paid <$> rows (invoices s2) !! 1 = Some 0 ∧
    ends_leaving (toggle_invoice_paid [1] s2) tt TypeError demo_store.
Proof.
  split; [vm_compute; eauto|].
  apply (proj2 (invoice_toggle_involutive (init_db None) 1 1 None "")
               demo_history 1 []
               (Invoice 3 3 (Some (75 # 1)%Q) (Some "2024-02-01T10:05:00"%string) 1)).
  vm_compute. reflexivity.
Defined.

Lemma add_patient_id_strictly_increasing_witness :
  is_Some (rows (patients (run (take 1 demo_history) (init_db None))) !! 2) ∧
  ∃ pid s',
    add_patient (Some "Dan"%string) (Some "Eze"%string) None None (Some ""%string)
                (run (take 1 demo_history ++ drop 1 demo_history) (init_db None))
      = Ok (Some pid, s') ∧
    2 < pid ∧
    seq (patients (run (take 1 demo_history ++ drop 1 demo_history)
                       (init_db None))) < pid ∧
    rows (patients (run (take 1 demo_history ++ drop 1 demo_history)
                        (init_db None))) !! pid = None ∧
    rows (patients s') !! pid
      = Some (Patient (Some "Dan"%string) (Some "Eze"%string) None None
                      (Some ""%string)) ∧
    seq (patients s') = pid.
Proof.
  split; [vm_compute; eauto|].
  apply add_patient_id_strictly_increasing. vm_compute. eauto.
Defined.

Lemma reachable_paid_flag_boolean_witness :
  rows (invoices (run demo_history (init_db None))) !! 1
    = Some (Invoice 3 3 (Some (75 # 1)%Q) (Some "2024-02-01T10:05:00"%string) 1) ∧
  (i_paid (Invoice 3 3 (Some (75 # 1)%Q) (Some "2024-02-01T10:05:00"%string) 1) = 0 ∨
   i_paid (Invoice 3 3 (Some (75 # 1)%Q) (Some "2024-02-01T10:05:00"%string) 1) = 1).
Proof.
  split; [vm_compute; reflexivity|].
  apply (reachable_paid_flag_boolean demo_history 1
           (Invoice 3 3 (Some (75 # 1)%Q) (Some "2024-02-01T10:05:00"%string) 1)).
  vm_compute. reflexivity.
Defined.

(** * More of the program *)

(** ** Rows of the joined listings *)

Section JoinedRows.

Context {real : Type}.
Implicit Types (s : @store real).

Lemma elem_of_join_patients {R} (patient_id : R → Z) (t : table R) s
    (j : Z * R * patient) :
  j ∈ join_patients patient_id t s ↔
  rows t !! j.1.1 = Some j.1.2 ∧
  rows (patients s) !! patient_id j.1.2 = Some j.2.
Proof.
  rewrite join_patients_lookup, list_elem_of_omap. split.
  - intros ([k r] & Hin & Hx). apply elem_of_scan in Hin. simpl in Hx.
    destruct (rows (patients s) !! patient_id r) as [p|] eqn:Hp;
      simplify_eq/=. done.
  - destruct j as [[k r] p]. simpl. intros [Hr Hp]. exists (k, r).
    split; [by apply elem_of_scan|]. simpl. by rewrite Hp.
Qed.

Lemma elem_of_select_appointments s row :
  row ∈ select_appointments s ↔
  ∃ id a p,
    rows (appointments s) !! id = Some a ∧
    rows (patients s) !! a_patient_id a = Some p ∧
    row = (id, full_name p, a_doctor a, a_datetime a, a_reason a, a_status a).
Proof.
  unfold select_appointments.
  rewrite order_by_desc_perm, list_elem_of_fmap. split.
  - intros ([[id a] p] & -> & [Ha Hp]%elem_of_join_patients).
    by exists id, a, p.
  - intros (id & a & p & Ha & Hp & ->). exists (id, a, p).
    split; [done|]. by apply elem_of_join_patients.
Qed.

Lemma elem_of_select_consultations s row :
  row ∈ select_consultations s ↔
  ∃ id c p,
    rows (consultations s) !! id = Some c ∧
    rows (patients s) !! c_patient_id c = Some p ∧
    row = (id, full_name p, c_doctor c, c_created_at c, c_prescription c).
Proof.
  unfold select_consultations.
  rewrite order_by_desc_perm, list_elem_of_fmap. split.
  - intros ([[id c] p] & -> & [Hc Hp]%elem_of_join_patients).
    by exists id, c, p.
  - intros (id & c & p & Hc & Hp & ->). exists (id, c, p).
    split; [done|]. by apply elem_of_join_patients.
Qed.

Lemma elem_of_select_invoices s row :
  row ∈ select_invoices s ↔
  ∃ id i p,
    rows (invoices s) !! id = Some i ∧
    rows (patients s) !! i_patient_id i = Some p ∧
    row = (id, full_name p, i_amount i, i_issued_at i, i_paid i).
Proof.
  unfold select_invoices.
  rewrite order_by_desc_perm, list_elem_of_fmap. split.
  - intros ([[id i] p] & -> & [Hi Hp]%elem_of_join_patients).
    by exists id, i, p.
  - intros (id & i & p & Hi & Hp & ->). exists (id, i, p).
    split; [done|]. by apply elem_of_join_patients.
Qed.

Lemma list_appointments_eq s : list_appointments s = Ok (select_appointments s, s).
Proof. reflexivity. Qed.

Lemma list_consultations_eq s :
  list_consultations s = Ok (select_consultations s, s).
Proof. reflexivity. Qed.

Lemma list_invoices_eq s : list_invoices s = Ok (select_invoices s, s).
Proof. reflexivity. Qed.

(** *** The order of the joined listings *)

Global Instance text_le_total : Total text_le.
Proof.
  intros [x|] [y|]; simpl; auto. destruct (total String.le x y); auto.
Qed.

Global Instance text_le_trans : Transitive text_le.
Proof.
  intros [x|] [y|] [z|]; simpl; try done. apply transitivity.
Qed.

Lemma order_by_desc_text_sorted {A} (key : A → text) (l : list A) :
  StronglySorted (λ x y, text_le (key y) (key x)) (order_by_desc text_le key l).
Proof.
  assert (Transitive (by_key (flip text_le) key)).
  { intros x y z. unfold by_key, flip. intros Hxy Hyz. by etrans. }
  assert (Total (by_key (flip text_le) key)).
  { intros x y. unfold by_key, flip.
    destruct (total text_le (key x) (key y)); auto. }
  by apply (order_by_desc_sorted text_le key l).
Qed.

(** *** Rows with equal sort keys *)

Lemma StronglySorted_omap {X Y} (R1 : relation X) (R2 : relation Y)
    (f : X → option Y) (l : list X) :
  (∀ x y x' y', f x = Some x' → f y = Some y' → R1 x y → R2 x' y') →
  StronglySorted R1 l → StronglySorted R2 (omap f l).
Proof.
  intros Hf. induction l as [|x l IH]; intros Hs; [constructor|].
  apply StronglySorted_cons in Hs as [Hx Hs]. csimpl.
  destruct (f x) as [x'|] eqn:Hfx; [|by apply IH].
  apply StronglySorted_cons. split; [|by apply IH].
  apply Forall_forall. intros y' (y & Hy & Hfy)%list_elem_of_omap.
  rewrite Forall_forall in Hx. eapply Hf; eauto.
Qed.

(** The join hands its rows on in ascending order of their id. *)
Lemma join_patients_ascending {R} (patient_id : R → Z) (t : table R) s :
  StronglySorted (by_key Z.lt (λ j : Z * R * patient, j.1.1))
                 (join_patients patient_id t s).
Proof.
  rewrite join_patients_lookup.
  eapply StronglySorted_omap; [|apply scan_strict].
  intros [k r] [k' r'] j j' Hj Hj' Hlt. unfold by_key in *. simpl in *.
  destruct (rows (patients s) !! patient_id r); simplify_eq/=.
  destruct (rows (patients s) !! patient_id r'); simplify_eq/=. done.
Qed.

(** In [list_appointments], a row is followed only by rows whose datetime
    is not larger, and when the datetimes are equal only by rows of a
    larger id. *)
Lemma select_appointments_stable s :
  StronglySorted
    (λ x y, text_le y.1.1.2 x.1.1.2 ∧
            (text_le x.1.1.2 y.1.1.2 → appointment_row_id x < appointment_row_id y))
    (select_appointments s).
Proof.
  unfold select_appointments.
  apply (order_by_desc_stable appointment_row_id text_le).
  eapply StronglySorted_fmap; [|apply join_patients_ascending].
  by intros [[id a] p] [[id' a'] p'].
Qed.

Lemma select_consultations_stable s :
  StronglySorted
    (λ x y, text_le y.1.2 x.1.2 ∧
            (text_le x.1.2 y.1.2 → consultation_row_id x < consultation_row_id y))
    (select_consultations s).
Proof.
  unfold select_consultations.
  apply (order_by_desc_stable consultation_row_id text_le).
  eapply StronglySorted_fmap; [|apply join_patients_ascending].
  by intros [[id c] p] [[id' c'] p'].
Qed.

Lemma select_invoices_stable s :
  StronglySorted
    (λ x y, text_le y.1.2 x.1.2 ∧
            (text_le x.1.2 y.1.2 → invoice_row_id x < invoice_row_id y))
    (select_invoices s).
Proof.
  unfold select_invoices.
  apply (order_by_desc_stable invoice_row_id text_le).
  eapply StronglySorted_fmap; [|apply join_patients_ascending].
  by intros [[id i] p] [[id' i'] p'].
Qed.

End JoinedRows.

(** ** The remaining operations *)

Section MoreOperations.

Context {real : Type}.
Implicit Types (s : @store real).

(** X1: a patient added is the patient [get_patient] then returns under
    the id handed out, an id under which it returned [None] before; the
    answer for every other id is what it was, and the other three tables
    are untouched. *)
Theorem add_patient_get_patient_round_trip
    (s : @store real) (first last dob phone notes : text) :
  ∃ pid s',
    add_patient first last dob phone notes s = Ok (Some pid, s') ∧
    get_patient pid s = Ok (None, s) ∧
    get_patient pid s' = Ok (Some (pid, first, last, dob, phone, notes), s') ∧
    (∀ k, k ≠ pid →
       ∃ r, get_patient k s = Ok (r, s) ∧ get_patient k s' = Ok (r, s')) ∧
    appointments s' = appointments s ∧
    consultations s' = consultations s ∧
    invoices s' = invoices s.
Proof.
  eexists _, _. split; [apply add_patient_eq|].
  rewrite !get_patient_eq. simpl.
  rewrite new_rowid_fresh, lookup_insert_eq. do 2 (split; [done|]).
  split; [|done]. intros k Hk. eexists. rewrite !get_patient_eq. simpl.
  by rewrite lookup_insert_ne.
Qed.

(** X2: [add_appointment] takes any patient id, existing or not.  It
    stores the appointment with status "scheduled" under a new id, keeps
    every other appointment and the other tables, and the appointment is
    in what [list_appointments] returns exactly when its patient id is the
    id of a stored patient. *)
Theorem add_appointment_scheduled_and_listed
    (s : @store real) (pid : Z) (doctor dt reason : text) :
  ∃ aid s' la,
    add_appointment pid doctor dt reason s = Ok (Some aid, s') ∧
    rows (appointments s) !! aid = None ∧
    rows (appointments s') !! aid
      = Some (Appointment pid doctor dt reason (Some "scheduled"%string)) ∧
    (∀ k, k ≠ aid → rows (appointments s') !! k = rows (appointments s) !! k) ∧
    patients s' = patients s ∧
    consultations s' = consultations s ∧
    invoices s' = invoices s ∧
    list_appointments s' = Ok (la, s') ∧
    (aid ∈ appointment_row_id <$> la ↔ references_patient s pid).
Proof.
  eexists _, _, _. split; [apply add_appointment_eq|]. simpl.
  split; [apply new_rowid_fresh|]. split; [apply lookup_insert_eq|].
  split; [by intros k Hk; rewrite lookup_insert_ne|].
  do 3 (split; [done|]). split; [apply list_appointments_eq|].
  rewrite list_elem_of_fmap. split.
  - intros (row & Hid & (id & a & p & Ha & Hp & ->)%elem_of_select_appointments).
    simpl in Ha, Hp. unfold appointment_row_id in Hid. simpl in Hid. subst id.
    rewrite lookup_insert_eq in Ha. injection Ha as <-. simpl in Hp.
    by exists p.
  - intros [p Hp]. eexists. split; [|apply elem_of_select_appointments].
    2:{ eexists (new_rowid (appointments s)), _, p. simpl.
        split; [apply lookup_insert_eq|]. split; [exact Hp|reflexivity]. }
    reflexivity.
Qed.

(** X3: [add_consultation] does not look the appointment up.  On an
    appointment id the store does not hold it still records the
    consultation, and the appointments table is exactly what it was. *)
Theorem add_consultation_unknown_appointment
    (s : @store real) (a pid : Z) (doctor notes presc : text) (now : string) :
  rows (appointments s) !! a = None →
  ∃ cid s',
    add_consultation a pid doctor notes presc now s = Ok (Some cid, s') ∧
    rows (consultations s') !! cid
      = Some (Consultation a pid doctor notes presc (Some now)) ∧
    appointments s' = appointments s ∧
    patients s' = patients s ∧
    invoices s' = invoices s.
Proof.
  intros Ha. eexists _, _. split; [apply add_consultation_eq|]. simpl.
  split; [apply lookup_insert_eq|]. split; [|done].
  rewrite alter_id' by done. by destruct (appointments s).
Qed.

(** X4: [generate_invoice] checks neither id.  For a stored patient the
    new invoice is among the rows [list_invoices] returns, under the id
    handed out, with the patient's full name, the amount given, the time
    of the call and paid = 0, whatever the appointment id. *)
Theorem generate_invoice_listed_unpaid
    (s : @store real) (pid aid : Z) (amount : option real) (now : string)
    (p : patient) :
  rows (patients s) !! pid = Some p →
  ∃ iid s' li,
    generate_invoice pid aid amount now s = Ok (Some iid, s') ∧
    rows (invoices s) !! iid = None ∧
    list_invoices s' = Ok (li, s') ∧
    (iid, full_name p, amount, Some now, 0) ∈ li.
Proof.
  intros Hp. eexists _, _, _. split; [apply generate_invoice_eq|].
  split; [apply new_rowid_fresh|]. split; [apply list_invoices_eq|].
  apply elem_of_select_invoices.
  eexists _, (Invoice pid aid amount (Some now) 0), p. simpl.
  split; [apply lookup_insert_eq|]. by split.
Qed.

(** X5: the edge cases of [toggle_invoice_paid].  Without a selected row
    it returns and the store is as it was; only the first selected row
    counts; and on an id the invoices table does not hold it raises a
    TypeError, having written nothing. *)
Theorem toggle_invoice_paid_edge_cases (s : @store real) :
  toggle_invoice_paid [] s = Returned tt s ∧
  (∀ iid rest, toggle_invoice_paid (iid :: rest) s = toggle_invoice_paid [iid] s) ∧
  (∀ iid rest, rows (invoices s) !! iid = None →
     toggle_invoice_paid (iid :: rest) s = Raised TypeError s ∧
     step s (ToggleInvoicePaid (iid :: rest)) = s).
Proof.
  split; [done|]. split; [done|]. intros iid rest Hiid.
  cbn [step]. by rewrite (toggle_invoice_paid_absent iid rest s Hiid).
Qed.

(** *** Updates in place *)

Lemma size_alter {R} (f : R → R) k (m : gmap Z R) : size (alter f k m) = size m.
Proof.
  rewrite <- !(size_dom (D := gset Z)). by rewrite dom_alter_L.
Qed.

(** An update of the row under [k] shows in the scan at that row only. *)
Lemma scan_alter {R} (f : R → R) k (t : table R) :
  scan (Table (alter f k (rows t)) (seq t)) =
  (λ x, if decide (x.1 = k) then (x.1, f x.2) else x) <$> scan t.
Proof.
  set (g := λ x : Z * R, if decide (x.1 = k) then (x.1, f x.2) else x).
  assert (Hfst : ∀ x, (g x).1 = x.1) by (intros x; unfold g; by case_decide).
  apply (strictly_sorted_unique fst Z.lt); [lia|apply scan_strict| |].
  - eapply StronglySorted_fmap; [|apply scan_strict].
    intros x y. unfold by_key. by rewrite !Hfst.
  - apply NoDup_Permutation.
    + apply (NoDup_fmap_1 fst), NoDup_fst_scan.
    + apply (NoDup_fmap_1 fst). rewrite <- list_fmap_compose.
      rewrite (list_fmap_ext (fst ∘ g) fst) by (intros _ x _; apply Hfst).
      apply NoDup_fst_scan.
    + intros [j r]. rewrite elem_of_scan, list_elem_of_fmap. simpl.
      rewrite lookup_alter_Some. split.
      * intros [[-> (x & Hx & ->)] | [Hne Hj]].
        -- exists (j, x). split; [|by apply elem_of_scan].
           unfold g. simpl. by rewrite decide_True.
        -- exists (j, r). split; [|by apply elem_of_scan].
           unfold g. simpl. by rewrite decide_False.
      * intros ([j' x] & Heq & Hin%elem_of_scan). unfold g in Heq.
        simpl in Heq. case_decide; simplify_eq; [left|right]; eauto.
Qed.

Lemma omap_fmap_same {X Y} (h : X → option Y) (g : X → X) (l : list X) :
  (∀ x, h (g x) = h x) → omap h (g <$> l) = omap h l.
Proof.
  intros Hh. induction l as [|x l IH]; [done|]. csimpl.
  by rewrite Hh, IH.
Qed.

Lemma invoice_amounts_update_paid v iid s :
  invoice_amounts (update_paid v iid s) = invoice_amounts s.
Proof.
  unfold invoice_amounts. cbn [update_paid invoices].
  rewrite (scan_alter (set_paid v) iid (invoices s)).
  apply omap_fmap_same. intros [j i]. by case_decide.
Qed.

Section WithRevenue.

(** The invoice tree can be filled exactly when every invoice whose
    patient is stored has an amount. *)
Lemma invoice_tree_renders_iff s :
  invoice_tree_renders s ↔
  ∀ k i, rows (invoices s) !! k = Some i →
         references_patient s (i_patient_id i) → is_Some (i_amount i).
Proof.
  unfold invoice_tree_renders. rewrite Forall_forall. split.
  - intros Hall k i Hi [p Hp].
    apply (Hall (k, full_name p, i_amount i, i_issued_at i, i_paid i)).
    apply elem_of_select_invoices. by exists k, i, p.
  - intros Hall row (k & i & p & Hi & Hp & ->)%elem_of_select_invoices.
    simpl. apply (Hall k i Hi). by exists p.
Qed.

Lemma invoice_tree_renders_update_paid v iid s :
  invoice_tree_renders (update_paid v iid s) ↔ invoice_tree_renders s.
Proof.
  rewrite !invoice_tree_renders_iff. unfold references_patient. simpl. split.
  - intros Hall k i Hi Hp. destruct (decide (k = iid)) as [->|Hne].
    + apply (Hall iid (set_paid v i)); [|done].
      by rewrite lookup_alter_eq, Hi.
    + apply (Hall k i); [|done]. by rewrite lookup_alter_ne.
  - intros Hall k i [[-> (y & Hy & ->)] | [_ Hi]]%lookup_alter_Some Hp.
    + by apply (Hall k y).
    + by apply (Hall k i).
Qed.

Variable radd : real → real → real.
Variable rzero : real.

(** X6: toggling a stored invoice rewrites its paid flag, to 1 when it
    was 0 and to 0 otherwise, and nothing else: the invoice keeps its
    patient, appointment, amount and time, every other invoice and the
    other three tables stay, and the dashboard shows the numbers it showed
    before, revenue included.  The handler returns when every invoice
    whose patient is stored has an amount; otherwise its closing refresh
    of the invoice tree raises a TypeError, after the commit: the store
    left is the same. *)
Theorem toggle_invoice_paid_changes_flag_only
    (s : @store real) (iid : Z) (rest : list Z) (inv : invoice) :
  rows (invoices s) !! iid = Some inv →
  ∃ s',
    left_by (toggle_invoice_paid (iid :: rest) s) = s' ∧
    ((∀ k i, rows (invoices s) !! k = Some i →
        references_patient s (i_patient_id i) → is_Some (i_amount i)) →
     toggle_invoice_paid (iid :: rest) s = Returned tt s') ∧
    (¬ (∀ k i, rows (invoices s) !! k = Some i →
          references_patient s (i_patient_id i) → is_Some (i_amount i)) →
     toggle_invoice_paid (iid :: rest) s = Raised TypeError s') ∧
    rows (invoices s') !! iid
      = Some (set_paid (if bool_decide (i_paid inv = 0) then 1 else 0) inv) ∧
    (∀ k, k ≠ iid → rows (invoices s') !! k = rows (invoices s) !! k) ∧
    seq (invoices s') = seq (invoices s) ∧
    patients s' = patients s ∧
    appointments s' = appointments s ∧
    consultations s' = consultations s ∧
    ∃ np na nc ni total,
      refresh_admin radd rzero s = Ok (np, na, nc, ni, total, s) ∧
      refresh_admin radd rzero s' = Ok (np, na, nc, ni, total, s').
Proof.
  intros Hinv. eexists. split; [by apply toggle_invoice_paid_present|].
  rewrite <- !invoice_tree_renders_iff.
  rewrite <- !(invoice_tree_renders_update_paid
                 (if truthy (i_paid inv) then 0 else 1) iid s).
  split.
  { intros Hr.
    by destruct (toggle_invoice_paid_outcome iid rest s inv Hinv)
      as [[_ ->] | [Hn _]]. }
  split.
  { intros Hn.
    by destruct (toggle_invoice_paid_outcome iid rest s inv Hinv)
      as [[Hr _] | [_ ->]]. }
  assert (Hv : (if truthy (i_paid inv) then 0 else 1)
               = (if bool_decide (i_paid inv = 0) then 1 else 0)).
  { unfold truthy. case_bool_decide as H0; [by rewrite H0|].
    by apply Z.eqb_neq in H0 as ->. }
  rewrite Hv. split; [simpl; by rewrite lookup_alter_eq, Hinv|].
  split; [by intros k Hk; simpl; rewrite lookup_alter_ne|].
  do 4 (split; [done|]). eexists _, _, _, _, _.
  rewrite !refresh_admin_eq. split; [done|].
  rewrite invoice_amounts_update_paid. simpl. by rewrite size_alter.
Qed.

(** X7: counting a row is what the four writes do to the dashboard:
    [add_patient], [add_appointment], [add_consultation] and
    [generate_invoice] each raise their own count by one and leave the
    other counts as they were; the first three leave the revenue too. *)
Theorem dashboard_counts_follow_inserts (s : @store real) :
  ∃ np na nc ni total,
    refresh_admin radd rzero s = Ok (np, na, nc, ni, total, s) ∧
    (∀ first last dob phone notes, ∃ r s',
       add_patient first last dob phone notes s = Ok (r, s') ∧
       refresh_admin radd rzero s' = Ok (np + 1, na, nc, ni, total, s')) ∧
    (∀ pid doctor dt reason, ∃ r s',
       add_appointment pid doctor dt reason s = Ok (r, s') ∧
       refresh_admin radd rzero s' = Ok (np, na + 1, nc, ni, total, s')) ∧
    (∀ aid pid doctor notes presc now, ∃ r s',
       add_consultation aid pid doctor notes presc now s = Ok (r, s') ∧
       refresh_admin radd rzero s' = Ok (np, na, nc + 1, ni, total, s')) ∧
    (∀ pid aid amount now, ∃ r s' total',
       generate_invoice pid aid amount now s = Ok (r, s') ∧
       refresh_admin radd rzero s' = Ok (np, na, nc, ni + 1, total', s')).
Proof.
  eexists _, _, _, _, _. split; [apply refresh_admin_eq|].
  split; [|split; [|split]].
  - intros. eexists _, _. split; [apply add_patient_eq|].
    rewrite refresh_admin_eq. simpl.
    rewrite map_size_insert_None by apply new_rowid_fresh.
    by rewrite Nat2Z.inj_succ, <- Z.add_1_r.
  - intros. eexists _, _. split; [apply add_appointment_eq|].
    rewrite refresh_admin_eq. simpl.
    rewrite map_size_insert_None by apply new_rowid_fresh.
    by rewrite Nat2Z.inj_succ, <- Z.add_1_r.
  - intros. eexists _, _. split; [apply add_consultation_eq|].
    rewrite refresh_admin_eq. simpl.
    rewrite map_size_insert_None by apply new_rowid_fresh.
    by rewrite size_alter, Nat2Z.inj_succ, <- Z.add_1_r.
  - intros. eexists _, _, _. split; [apply generate_invoice_eq|].
    rewrite refresh_admin_eq. simpl.
    rewrite map_size_insert_None by apply new_rowid_fresh.
    by rewrite Nat2Z.inj_succ, <- Z.add_1_r.
Qed.

End WithRevenue.

End MoreOperations.

(** ** Rowids along a history *)

Section Sequences.

Context {R : Type}.
Implicit Types (t : table R).

Lemma foldr_max_opt_elem (l : list Z) top :
  foldr max_opt None l = Some top → top ∈ l.
Proof.
  revert top. induction l as [|x l IH]; intros top; [done|]. simpl.
  destruct (foldr max_opt None l) as [a|]; intros [= <-]; [|left].
  destruct (Z.max_spec x a) as [[_ ->] | [_ ->]]; [right; by apply IH|left].
Qed.

Lemma max_rowid_elem (m : gmap Z R) top :
  max_rowid m = Some top → is_Some (m !! top).
Proof.
  intros Htop%foldr_max_opt_elem.
  apply list_elem_of_fmap in Htop as ([k r] & -> & Hin).
  apply elem_of_map_to_list in Hin. by exists r.
Qed.

Lemma sequential_empty : sequential (empty_table : table R).
Proof.
  split; [done|]. intros k. simpl. rewrite lookup_empty.
  split; [by intros [? ?]|lia].
Qed.

Lemma sequential_new_rowid t : sequential t → new_rowid t = seq t + 1.
Proof.
  intros [Hsize Hdom]. unfold new_rowid.
  destruct (max_rowid (rows t)) as [top|] eqn:Htop.
  - apply max_rowid_elem, Hdom in Htop. lia.
  - lia.
Qed.

Lemma sequential_insert (r : R) t : sequential t → sequential (insert_row r t).2.
Proof.
  intros Hseq. pose proof (sequential_new_rowid t Hseq) as Hnew.
  destruct Hseq as [Hsize Hdom]. split; simpl.
  - rewrite map_size_insert_None by apply new_rowid_fresh. lia.
  - intros k. rewrite lookup_insert_is_Some, Hdom. lia.
Qed.

Lemma sequential_grows t t' : sequential t → grows t t' → sequential t'.
Proof.
  intros Hseq [-> | [(r & ->) | [(r1 & r2 & ->) | (f & k & ->)]]]; [done|..].
  - by apply sequential_insert.
  - by do 2 apply sequential_insert.
  - destruct Hseq as [Hsize Hdom]. split; simpl.
    + by rewrite size_alter.
    + intros j. by rewrite lookup_alter_is_Some.
Qed.

End Sequences.

(** ** Invariants of the histories *)

Section MoreHistories.

Context {real : Type}.
Implicit Types (s : @store real).

Lemma toggle_keeps_other_tables sel s :
  patients (left_by (toggle_invoice_paid sel s)) = patients s ∧
  appointments (left_by (toggle_invoice_paid sel s)) = appointments s ∧
  consultations (left_by (toggle_invoice_paid sel s)) = consultations s.
Proof.
  destruct sel as [|iid sel]; [done|].
  destruct (rows (invoices s) !! iid) as [inv|] eqn:Hinv.
  - by rewrite (toggle_invoice_paid_present iid sel s inv Hinv).
  - by rewrite (toggle_invoice_paid_absent iid sel s Hinv).
Qed.

(** Each call does to each table one of the things [grows] lists. *)
Lemma step_grows s (o : @op real) :
  grows (patients s) (patients (step s o)) ∧
  grows (appointments s) (appointments (step s o)) ∧
  grows (consultations s) (consultations (step s o)) ∧
  grows (invoices s) (invoices (step s o)).
Proof.
  destruct o as [f l d ph n|pid doc dt rs|aid pid doc n pr now|pid aid amt now
                |sel|n1 n2]; cbn [step].
  - rewrite add_patient_eq. simpl. repeat split; try by left.
    right; left. eexists; reflexivity.
  - rewrite add_appointment_eq. simpl. repeat split; try by left.
    right; left. eexists; reflexivity.
  - rewrite add_consultation_eq. simpl. repeat split; try by left.
    + do 3 right. eexists _, _; reflexivity.
    + right; left. eexists; reflexivity.
  - rewrite generate_invoice_eq. simpl. repeat split; try by left.
    right; left. eexists; reflexivity.
  - destruct (toggle_keeps_other_tables sel s) as (-> & -> & ->).
    repeat split; try by left.
    destruct (step_invoices_cases s (ToggleInvoicePaid sel))
      as [H | [(? & ? & ? & ? & H) | (j & inv & v & _ & _ & H)]];
      cbn [step] in H; rewrite H.
    + by left.
    + right; left. eexists; reflexivity.
    + do 3 right. eexists _, _; reflexivity.
  - destruct (seed_sample_data_cases n1 n2 s) as [-> | ->]; simpl.
    + repeat split; by left.
    + repeat split; try by left.
      * right; right; left. eexists _, _; reflexivity.
      * right; right; left. eexists _, _; reflexivity.
Qed.

Lemma run_sequential (ops : list (@op real)) :
  sequential (patients (run ops (init_db None))) ∧
  sequential (appointments (run ops (init_db None))) ∧
  sequential (consultations (run ops (init_db None))) ∧
  sequential (invoices (run ops (init_db None))).
Proof.
  apply (run_invariant
    (λ s, sequential (patients s) ∧ sequential (appointments s) ∧
          sequential (consultations s) ∧ sequential (invoices s))).
  - intros s o (Hp & Ha & Hc & Hi).
    destruct (step_grows s o) as (Gp & Ga & Gc & Gi).
    split; [|split; [|split]]; eapply sequential_grows; eauto.
  - simpl. split; [|split; [|split]]; apply sequential_empty.
Qed.

(** X8: in a store that a history of calls built from the empty store,
    the ids of each table are exactly 1, ..., n for its n rows, with n its
    sequence; so the next [add_patient], [add_appointment],
    [add_consultation] and [generate_invoice] return the row count plus
    one. *)
Theorem ids_are_sequential (ops : list (@op real)) :
  let s := run ops (init_db None) in
  sequential (patients s) ∧ sequential (appointments s) ∧
  sequential (consultations s) ∧ sequential (invoices s) ∧
  (∀ first last dob phone notes, ∃ s',
     add_patient first last dob phone notes s
       = Ok (Some (Z.of_nat (size (rows (patients s))) + 1), s')) ∧
  (∀ pid doctor dt reason, ∃ s',
     add_appointment pid doctor dt reason s
       = Ok (Some (Z.of_nat (size (rows (appointments s))) + 1), s')) ∧
  (∀ aid pid doctor notes presc now, ∃ s',
     add_consultation aid pid doctor notes presc now s
       = Ok (Some (Z.of_nat (size (rows (consultations s))) + 1), s')) ∧
  (∀ pid aid amount now, ∃ s',
     generate_invoice pid aid amount now s
       = Ok (Some (Z.of_nat (size (rows (invoices s))) + 1), s')).
Proof.
  intros s. destruct (run_sequential ops) as (Hp & Ha & Hc & Hi).
  fold s in Hp, Ha, Hc, Hi. do 4 (split; [done|]).
  split; [|split; [|split]]; intros; eexists.
  - rewrite add_patient_eq, (sequential_new_rowid _ Hp).
    by rewrite (proj1 Hp).
  - rewrite add_appointment_eq, (sequential_new_rowid _ Ha).
    by rewrite (proj1 Ha).
  - rewrite add_consultation_eq, (sequential_new_rowid _ Hc).
    by rewrite (proj1 Hc).
  - rewrite generate_invoice_eq, (sequential_new_rowid _ Hi).
    by rewrite (proj1 Hi).
Qed.

(** *** Appointment statuses *)

Lemma statuses_sound_insert_appointment s pid doctor dt reason :
  statuses_sound s → statuses_sound (insert_appointment pid doctor dt reason s).2.
Proof.
  intros Hs aid a. simpl.
  intros [[_ <-] | [_ Ha]]%lookup_insert_Some; [|by apply Hs].
  simpl. split; [by left|done].
Qed.

Lemma step_statuses_sound s (o : @op real) :
  statuses_sound s → statuses_sound (step s o).
Proof.
  intros Hs.
  destruct o as [f l d ph n|pid doc dt rs|aid pid doc n pr now|pid aid amt now
                |sel|n1 n2]; cbn [step].
  - by rewrite add_patient_eq.
  - rewrite add_appointment_eq. by apply statuses_sound_insert_appointment.
  - rewrite add_consultation_eq. intros j a. simpl.
    intros [[-> (x & Hx & ->)] | [Hne Ha]]%lookup_alter_Some.
    + split; [by right|]. intros _. eexists _, _.
      split; [apply lookup_insert_eq|done].
    + destruct (Hs j a Ha) as [Hst Hcons]. split; [done|].
      intros (cid & c & Hc & Hj)%Hcons. exists cid, c. split; [|done].
      by apply (insert_row_persist _ (consultations s)).
  - by rewrite generate_invoice_eq.
  - intros j a. destruct (toggle_keeps_other_tables sel s) as (_ & -> & ->).
    apply Hs.
  - destruct (seed_sample_data_cases n1 n2 s) as [-> | ->]; [done|].
    cbn [after]. by do 2 apply statuses_sound_insert_appointment.
Qed.

Lemma run_statuses_sound (ops : list (@op real)) :
  statuses_sound (run ops (init_db None)).
Proof.
  apply run_invariant; [apply step_statuses_sound|].
  intros aid a. simpl. by rewrite lookup_empty.
Qed.

(** X9: in a store that a history of calls built from the empty store,
    every appointment's status is "scheduled" or "completed", and an
    appointment that is completed has a consultation recorded against
    its id. *)
Theorem reachable_statuses_sound
    (ops : list (@op real)) (aid : Z) (a : appointment) :
  rows (appointments (run ops (init_db None))) !! aid = Some a →
  (a_status a = Some "scheduled"%string ∨ a_status a = Some "completed"%string) ∧
  (a_status a = Some "completed"%string →
     ∃ cid c, rows (consultations (run ops (init_db None))) !! cid = Some c ∧
              c_appointment_id c = aid).
Proof. apply run_statuses_sound. Qed.

(** *** The seed *)

Lemma seed_sample_data_guard n1 n2 s :
  rows (patients s) ≠ ∅ → seed_sample_data n1 n2 s = Ok (tt, s).
Proof.
  intros Hne. unfold seed_sample_data, with_conn, mbind, M_bind, query. simpl.
  rewrite bool_decide_eq_true_2; [done|]. unfold sql_count.
  apply map_size_non_empty_iff in Hne. lia.
Qed.

Lemma seed_sample_data_fresh n1 n2 s :
  rows (patients s) = ∅ → seed_sample_data n1 n2 s = Ok (tt, seeded n1 n2 s).
Proof.
  intros Hempty.
  unfold seed_sample_data, with_conn, mbind, M_bind, query. simpl.
  rewrite bool_decide_eq_false_2; [reflexivity|].
  unfold sql_count. rewrite Hempty, map_size_empty. lia.
Qed.

(** X10: [seed_sample_data] never raises; a store with at least one
    patient comes out exactly as it went in; and once it ran, running it
    again, at whatever time, changes nothing. *)
Theorem seed_sample_data_only_once (s : @store real) (n1 n2 m1 m2 : string) :
  ∃ s1,
    seed_sample_data n1 n2 s = Ok (tt, s1) ∧
    (rows (patients s) ≠ ∅ → s1 = s) ∧
    seed_sample_data m1 m2 s1 = Ok (tt, s1).
Proof.
  destruct (decide (rows (patients s) = ∅)) as [Hempty|Hne].
  - exists (seeded n1 n2 s). split; [by apply seed_sample_data_fresh|].
    split; [done|]. apply seed_sample_data_guard. simpl.
    apply insert_non_empty.
  - exists s. split; [by apply seed_sample_data_guard|].
    split; [done|by apply seed_sample_data_guard].
Qed.

(** X11: the seed writes the patient ids 1 and 2 into its two
    appointments without reading them back.  In a store that a history of
    calls built from the empty store and that has no patient, they are
    right: after the seed, patient 1 is Alice Wong, patient 2 is Bob
    Smith, there is no other patient, and the two appointments the seed
    added, scheduled, carry these two ids. *)
Theorem seed_sample_data_ids_match
    (ops : list (@op real)) (n1 n2 : string) :
  rows (patients (run ops (init_db None))) = ∅ →
  ∃ s1 a1 a2,
    seed_sample_data n1 n2 (run ops (init_db None)) = Ok (tt, s1) ∧
    rows (patients s1)
      = {[ 1 := Patient (Some "Alice") (Some "Wong") (Some "1985-04-12")
                        (Some "+441234567890") (Some "Allergic to penicillin");
           2 := Patient (Some "Bob") (Some "Smith") (Some "1990-11-03")
                        (Some "+447700900123") (Some "Diabetic") ]}%string ∧
    a1 ≠ a2 ∧
    rows (appointments (run ops (init_db None))) !! a1 = None ∧
    rows (appointments (run ops (init_db None))) !! a2 = None ∧
    rows (appointments s1) !! a1
      = Some (Appointment 1 (Some "Dr. Patel") (Some n1) (Some "Routine checkup")
                          (Some "scheduled"))%string ∧
    rows (appointments s1) !! a2
      = Some (Appointment 2 (Some "Dr. Jones") (Some n2) (Some "Follow-up")
                          (Some "scheduled"))%string.
Proof.
  intros Hempty. set (s := run ops (init_db None)) in *.
  destruct (run_sequential ops) as (Hp & Ha & _). fold s in Hp, Ha.
  assert (Hseq0 : seq (patients s) = 0).
  { rewrite <- (proj1 Hp), Hempty, map_size_empty. done. }
  pose proof (sequential_insert
    (Patient (Some "Alice") (Some "Wong") (Some "1985-04-12")
             (Some "+441234567890") (Some "Allergic to penicillin"))%string
    _ Hp) as Hp1.
  pose proof (sequential_new_rowid _ Hp) as Hk1.
  pose proof (sequential_new_rowid _ Hp1) as Hk2.
  pose proof (sequential_insert
    (Appointment 1 (Some "Dr. Patel") (Some n1) (Some "Routine checkup")
                 (Some "scheduled"))%string _ Ha) as Ha1.
  pose proof (sequential_new_rowid _ Ha) as Hj1.
  pose proof (sequential_new_rowid _ Ha1) as Hj2.
  simpl in Hk2, Hj2.
  exists (seeded n1 n2 s), (seq (appointments s) + 1), (seq (appointments s) + 2).
  split; [by apply seed_sample_data_fresh|].
  split.
  { simpl. rewrite Hk2, Hk1, Hseq0, Hempty. simpl.
    apply map_eq. intros k.
    destruct (decide (k = 1)) as [->|]; [done|].
    destruct (decide (k = 2)) as [->|]; [done|].
    rewrite !lookup_insert_ne by lia.
    by rewrite lookup_empty, lookup_singleton_ne by lia. }
  split; [lia|].
  split.
  { apply eq_None_not_Some. rewrite (proj2 Ha). lia. }
  split.
  { apply eq_None_not_Some. rewrite (proj2 Ha). lia. }
  simpl. rewrite Hj2, Hj1. split.
  - rewrite lookup_insert_ne by lia. by rewrite lookup_insert_eq.
  - replace (seq (appointments s) + 1 + 1) with (seq (appointments s) + 2) by lia.
    by rewrite lookup_insert_eq.
Qed.

End MoreHistories.

(** ** The handlers *)

Section MoreHandlers.

Context {real : Type}.
Variable strip : string → string.
Implicit Types (s : @store real).

(** X12: what the three joined listings return.  A row is listed exactly
    when it is the stored row under its id together with the full name of
    the patient stored under its patient id (NULL when a name is NULL);
    and the rows come by datetime, creation time and issue time
    descending, NULL last, rows with the same time in ascending order of
    id. *)
Theorem joined_listings_rows_and_order (s : @store real) :
  ∃ la lc li,
    list_appointments s = Ok (la, s) ∧
    list_consultations s = Ok (lc, s) ∧
    list_invoices s = Ok (li, s) ∧
    (∀ row, row ∈ la ↔
       ∃ id a p,
         rows (appointments s) !! id = Some a ∧
         rows (patients s) !! a_patient_id a = Some p ∧
         row = (id, full_name p, a_doctor a, a_datetime a, a_reason a,
                a_status a)) ∧
    (∀ row, row ∈ lc ↔
       ∃ id c p,
         rows (consultations s) !! id = Some c ∧
         rows (patients s) !! c_patient_id c = Some p ∧
         row = (id, full_name p, c_doctor c, c_created_at c, c_prescription c)) ∧
    (∀ row, row ∈ li ↔
       ∃ id i p,
         rows (invoices s) !! id = Some i ∧
         rows (patients s) !! i_patient_id i = Some p ∧
         row = (id, full_name p, i_amount i, i_issued_at i, i_paid i)) ∧
    StronglySorted (λ x y, text_le y.1.1.2 x.1.1.2) la ∧
    StronglySorted (λ x y, text_le y.1.2 x.1.2) lc ∧
    StronglySorted (λ x y, text_le y.1.2 x.1.2) li ∧
    StronglySorted
      (λ x y, text_le x.1.1.2 y.1.1.2 →
              appointment_row_id x < appointment_row_id y) la ∧
    StronglySorted
      (λ x y, text_le x.1.2 y.1.2 →
              consultation_row_id x < consultation_row_id y) lc ∧
    StronglySorted
      (λ x y, text_le x.1.2 y.1.2 → invoice_row_id x < invoice_row_id y) li.
Proof.
  exists (select_appointments s), (select_consultations s), (select_invoices s).
  do 3 (split; [done|]).
  split; [apply elem_of_select_appointments|].
  split; [apply elem_of_select_consultations|].
  split; [apply elem_of_select_invoices|].
  do 3 (split; [apply order_by_desc_text_sorted|]).
  split; [|split].
  - rewrite <- (list_fmap_id (select_appointments s)).
    eapply StronglySorted_fmap; [|apply select_appointments_stable].
    by intros x y [_ H].
  - rewrite <- (list_fmap_id (select_consultations s)).
    eapply StronglySorted_fmap; [|apply select_consultations_stable].
    by intros x y [_ H].
  - rewrite <- (list_fmap_id (select_invoices s)).
    eapply StronglySorted_fmap; [|apply select_invoices_stable].
    by intros x y [_ H].
Qed.

(** *** Reading the head of a listing *)

Lemma elem_of_select_patients s row :
  row ∈ select_patients s ↔
  ∃ id p, rows (patients s) !! id = Some p ∧
          row = (id, first_name p, last_name p, dob p, phone p).
Proof.
  unfold select_patients. rewrite list_elem_of_fmap. split.
  - intros ([id p] & -> & Hin). rewrite order_by_desc_perm in Hin.
    apply elem_of_scan in Hin. by exists id, p.
  - intros (id & p & Hp & ->). exists (id, p). split; [done|].
    rewrite order_by_desc_perm. by apply elem_of_scan.
Qed.

Lemma select_patients_sorted s :
  StronglySorted (λ x y, patient_row_id y < patient_row_id x) (select_patients s).
Proof.
  unfold select_patients.
  eapply StronglySorted_fmap; [|apply (order_by_desc_strict fst), NoDup_fst_scan].
  intros x y Hxy. exact Hxy.
Qed.

Lemma select_patients_nil s : select_patients s = [] ↔ rows (patients s) = ∅.
Proof.
  split.
  - intros Hnil. apply map_empty. intros k.
    destruct (rows (patients s) !! k) as [p|] eqn:Hk; [|done].
    assert (Hin : (k, first_name p, last_name p, dob p, phone p)
                  ∈ select_patients s)
      by (apply elem_of_select_patients; by exists k, p).
    rewrite Hnil in Hin. by apply elem_of_nil in Hin.
  - intros Hempty. destruct (select_patients s) as [|row l] eqn:Hl; [done|].
    assert (Hin : row ∈ select_patients s) by (rewrite Hl; left).
    apply elem_of_select_patients in Hin as (id & p & Hp & _).
    rewrite Hempty, lookup_empty in Hp. done.
Qed.

(** The head of the patient listing is the patient with the largest id. *)
Lemma select_patients_head s row rest :
  select_patients s = row :: rest →
  is_Some (rows (patients s) !! patient_row_id row) ∧
  ∀ k, is_Some (rows (patients s) !! k) → k ≤ patient_row_id row.
Proof.
  intros Hl. pose proof (select_patients_sorted s) as Hs. rewrite Hl in Hs.
  apply StronglySorted_cons in Hs as [Hall _].
  assert (Hin : row ∈ select_patients s) by (rewrite Hl; left).
  apply elem_of_select_patients in Hin as (id & p & Hp & ->).
  split; [by exists p|]. intros k [q Hq].
  assert (Hk : (k, first_name q, last_name q, dob q, phone q)
               ∈ select_patients s)
    by (apply elem_of_select_patients; by exists k, q).
  rewrite Hl in Hk. apply elem_of_cons in Hk as [Hk|Hk].
  - injection Hk as -> _ _ _ _. done.
  - rewrite Forall_forall in Hall. apply Hall in Hk.
    unfold patient_row_id in *. simpl in *. lia.
Qed.

Lemma select_patient_id_lookup aid s :
  fetchone (select_patient_id aid s)
  = a_patient_id <$> rows (appointments s) !! aid.
Proof.
  unfold select_patient_id. rewrite where_id_lookup.
  by destruct (rows (appointments s) !! aid).
Qed.

(** *** What each handler does *)

Lemma py_or_nonempty (x : text) (d : string) :
  d ≠ EmptyString → ∃ r, py_or x d = Some r ∧ r ≠ EmptyString.
Proof.
  intros Hd. destruct x as [[|c x]|]; simpl; eauto.
Qed.

Lemma py_or_some (x : text) (d : string) : ∃ r, py_or x d = Some r.
Proof. destruct x as [[|c x]|]; simpl; eauto. Qed.

Lemma handle_add_patient_invalid fn ln dob phone s :
  strip fn = EmptyString ∨ strip ln = EmptyString →
  handle_add_patient strip fn ln dob phone s = Ok (ValidationError, s).
Proof.
  intros H. unfold handle_add_patient. by rewrite bool_decide_eq_true_2.
Qed.

Lemma handle_add_patient_valid fn ln dob phone s :
  strip fn ≠ EmptyString → strip ln ≠ EmptyString →
  handle_add_patient strip fn ln dob phone s =
  Ok (AddedInfo (Some (new_rowid (patients s))),
      (insert_patient
         (Patient (Some (strip fn)) (Some (strip ln)) (Some (strip dob))
                  (Some (strip phone)) (Some EmptyString)) s).2).
Proof.
  intros Hf Hl. unfold handle_add_patient.
  rewrite bool_decide_eq_false_2 by (by intros [?|?]). reflexivity.
Qed.

Lemma new_appointment_dialog_empty doctor dt reason s :
  select_patients s = [] →
  new_appointment_dialog doctor dt reason s = Ok (NoPatientsWarning, s).
Proof.
  intros Hl. unfold new_appointment_dialog, mbind, Op_bind.
  by rewrite list_patients_eq, Hl.
Qed.

Lemma new_appointment_dialog_head doctor dt reason s row rest :
  select_patients s = row :: rest →
  new_appointment_dialog doctor dt reason s =
  Ok (Silent,
      (insert_appointment (patient_row_id row) doctor dt
                          (py_or reason "Consultation") s).2).
Proof.
  intros Hl. unfold new_appointment_dialog, mbind, Op_bind.
  by rewrite list_patients_eq, Hl.
Qed.

Lemma open_appointment_actions_absent aid patient doctor dt reason status rest
    notes presc now s :
  rows (appointments s) !! aid = None →
  open_appointment_actions
    ((aid, patient, doctor, dt, reason, status) :: rest) true notes presc now s
  = Raise TypeError.
Proof.
  intros Ha. unfold open_appointment_actions, mbind at 1, Op_bind, with_conn.
  unfold mbind, M_bind, query. simpl.
  by rewrite select_patient_id_lookup, Ha.
Qed.

Lemma open_appointment_actions_present aid patient doctor dt reason status
    rest notes presc now s a :
  rows (appointments s) !! aid = Some a →
  open_appointment_actions
    ((aid, patient, doctor, dt, reason, status) :: rest) true notes presc now s
  = Ok (Silent,
        update_status_completed aid
          (insert_consultation
             (Consultation aid (a_patient_id a) doctor (py_or notes "")
                           (py_or presc "") (Some now)) s).2).
Proof.
  intros Ha. unfold open_appointment_actions, mbind at 1, Op_bind, with_conn.
  unfold mbind at 1, M_bind, query. simpl.
  rewrite select_patient_id_lookup, Ha. reflexivity.
Qed.

Lemma create_invoice_dialog_empty amount now s :
  select_appointments s = [] →
  create_invoice_dialog amount now s = Returned NoAppointmentsWarning s.
Proof.
  intros Hl. unfold create_invoice_dialog, mbind, Handler_bind, call.
  by rewrite list_appointments_eq, Hl.
Qed.

Lemma create_invoice_dialog_eq amount now s row rest a :
  select_appointments s = row :: rest →
  rows (appointments s) !! appointment_row_id row = Some a →
  create_invoice_dialog amount now s =
  match call refresh_invoice_list
          (insert_invoice (a_patient_id a) (appointment_row_id row) amount
                          (Some now) s).2 with
  | Returned _ s' => Returned Silent s'
  | Raised e s' => Raised e s'
  end.
Proof.
  intros Hl Ha. unfold create_invoice_dialog, mbind at 1, Handler_bind.
  unfold call at 1. rewrite list_appointments_eq, Hl.
  unfold mbind at 1, Handler_bind. unfold call at 1, with_conn.
  unfold mbind at 1, M_bind, query. simpl.
  rewrite select_patient_id_lookup, Ha. reflexivity.
Qed.

Lemma create_invoice_dialog_outcome amount now s row rest a :
  select_appointments s = row :: rest →
  rows (appointments s) !! appointment_row_id row = Some a →
  let s' := (insert_invoice (a_patient_id a) (appointment_row_id row) amount
                            (Some now) s).2 in
  (invoice_tree_renders s' ∧
   create_invoice_dialog amount now s = Returned Silent s') ∨
  (¬ invoice_tree_renders s' ∧
   create_invoice_dialog amount now s = Raised TypeError s').
Proof.
  intros Hl Ha s'. rewrite (create_invoice_dialog_eq _ _ _ _ _ _ Hl Ha).
  fold s'.
  destruct (call_refresh_invoice_list s') as [[Hr [tree ->]] | [Hr ->]];
    [left|right]; done.
Qed.

Lemma create_invoice_dialog_head amount now s row rest a :
  select_appointments s = row :: rest →
  rows (appointments s) !! appointment_row_id row = Some a →
  left_by (create_invoice_dialog amount now s) =
  (insert_invoice (a_patient_id a) (appointment_row_id row) amount
                  (Some now) s).2.
Proof.
  intros Hl Ha.
  by destruct (create_invoice_dialog_outcome amount now s row rest a Hl Ha)
    as [[_ ->] | [_ ->]].
Qed.

(** X13: [handle_add_patient] strips the four fields and refuses an
    empty first or last name with the validation message, the store being
    as it was; otherwise it adds the patient with the stripped fields and
    empty notes, reports the id handed out, and [get_patient] on that id
    returns exactly that record. *)
Theorem handle_add_patient_validates
    (s : @store real) (fn ln dob phone : string) :
  (strip fn = EmptyString ∨ strip ln = EmptyString →
     handle_add_patient strip fn ln dob phone s = Ok (ValidationError, s)) ∧
  (strip fn ≠ EmptyString → strip ln ≠ EmptyString →
     ∃ pid s',
       handle_add_patient strip fn ln dob phone s
         = Ok (AddedInfo (Some pid), s') ∧
       add_patient (Some (strip fn)) (Some (strip ln)) (Some (strip dob))
                   (Some (strip phone)) (Some EmptyString) s
         = Ok (Some pid, s') ∧
       rows (patients s) !! pid = None ∧
       get_patient pid s'
         = Ok (Some (pid, Some (strip fn), Some (strip ln), Some (strip dob),
                     Some (strip phone), Some EmptyString), s')).
Proof.
  split; [apply handle_add_patient_invalid|].
  intros Hf Hl. eexists _, _.
  split; [by apply handle_add_patient_valid|].
  split; [apply add_patient_eq|]. split; [apply new_rowid_fresh|].
  rewrite get_patient_eq. simpl. by rewrite lookup_insert_eq.
Qed.

(** X14: [new_appointment_dialog] never raises.  Without a patient it
    warns and writes nothing.  Otherwise it books the appointment for the
    patient with the largest id, whatever the user meant: the call is
    [add_appointment] on that id, with the reason replaced by
    "Consultation" when the dialog gave none, so the reason stored is
    never NULL nor empty. *)
Theorem new_appointment_dialog_books_newest_patient
    (s : @store real) (doctor dt reason : text) :
  (rows (patients s) = ∅ →
     new_appointment_dialog doctor dt reason s = Ok (NoPatientsWarning, s)) ∧
  (rows (patients s) ≠ ∅ →
     ∃ pid aid s' r,
       new_appointment_dialog doctor dt reason s = Ok (Silent, s') ∧
       is_Some (rows (patients s) !! pid) ∧
       (∀ k, is_Some (rows (patients s) !! k) → k ≤ pid) ∧
       add_appointment pid doctor dt (Some r) s = Ok (Some aid, s') ∧
       r ≠ EmptyString ∧
       rows (appointments s') !! aid
         = Some (Appointment pid doctor dt (Some r) (Some "scheduled"%string)) ∧
       (reason = Some r ∨
        ((reason = None ∨ reason = Some EmptyString) ∧
         r = "Consultation"%string))).
Proof.
  split.
  - intros Hempty. by apply new_appointment_dialog_empty, select_patients_nil.
  - intros Hne. destruct (select_patients s) as [|row rest] eqn:Hl.
    { by apply select_patients_nil in Hl. }
    destruct (select_patients_head s row rest Hl) as [Hin Hmax].
    destruct (py_or_nonempty reason "Consultation") as (r & Hr & Hr0); [done|].
    exists (patient_row_id row), (new_rowid (appointments s)). eexists _, r.
    split; [by eapply new_appointment_dialog_head|].
    do 2 (split; [done|]). rewrite Hr, add_appointment_eq.
    split; [done|]. split; [done|]. simpl.
    split; [by rewrite lookup_insert_eq|].
    destruct reason as [[|c x]|]; simpl in Hr; simplify_eq; auto.
Qed.

(** X15: [open_appointment_actions] writes only when a row is selected and
    the user says yes.  It then reads the patient id off the stored
    appointment: on an id the store does not hold this raises a TypeError
    before anything is written; otherwise the call is [add_consultation]
    for that appointment and its own patient, with empty strings for the
    notes and prescription the dialogs did not give. *)
Theorem open_appointment_actions_records_for_own_patient
    (s : @store real) (aid : Z) (patient doctor dt reason status : text)
    (rest : list (Z * text * text * text * text * text))
    (confirm : bool) (notes presc : text) (now : string) :
  open_appointment_actions [] confirm notes presc now s = Ok (Silent, s) ∧
  open_appointment_actions
    ((aid, patient, doctor, dt, reason, status) :: rest) false notes presc now s
    = Ok (Silent, s) ∧
  (rows (appointments s) !! aid = None →
     open_appointment_actions
       ((aid, patient, doctor, dt, reason, status) :: rest) true notes presc now s
       = Raise TypeError) ∧
  (∀ a, rows (appointments s) !! aid = Some a →
     ∃ cid s' n p,
       open_appointment_actions
         ((aid, patient, doctor, dt, reason, status) :: rest) true
         notes presc now s = Ok (Silent, s') ∧
       add_consultation aid (a_patient_id a) doctor (Some n) (Some p) now s
         = Ok (Some cid, s') ∧
       rows (consultations s') !! cid
         = Some (Consultation aid (a_patient_id a) doctor (Some n) (Some p)
                              (Some now)) ∧
       rows (appointments s') !! aid
         = Some (set_status (Some "completed"%string) a) ∧
       (notes = Some n ∨ (notes = None ∧ n = EmptyString)) ∧
       (presc = Some p ∨ (presc = None ∧ p = EmptyString))).
Proof.
  split; [done|]. split; [done|].
  split; [apply open_appointment_actions_absent|].
  intros a Ha.
  destruct (py_or_some notes "") as (n & Hn).
  destruct (py_or_some presc "") as (p & Hp).
  exists (new_rowid (consultations s)). eexists _, n, p.
  split; [by eapply open_appointment_actions_present|].
  rewrite Hn, Hp, add_consultation_eq. split; [done|]. simpl.
  split; [by rewrite lookup_insert_eq|].
  split; [by rewrite lookup_alter_eq, Ha|].
  split.
  - destruct notes as [[|c x]|]; simpl in Hn; simplify_eq; auto.
  - destruct presc as [[|c x]|]; simpl in Hp; simplify_eq; auto.
Qed.

(** The head of the appointment listing is a stored appointment whose
    patient is stored. *)
Lemma select_appointments_head s row rest :
  select_appointments s = row :: rest →
  ∃ a p, rows (appointments s) !! appointment_row_id row = Some a ∧
         rows (patients s) !! a_patient_id a = Some p.
Proof.
  intros Hl. assert (Hin : row ∈ select_appointments s) by (rewrite Hl; left).
  apply elem_of_select_appointments in Hin as (id & a & p & Ha & Hp & ->).
  by exists a, p.
Qed.

(** X16: [create_invoice_dialog] warns and writes nothing when
    [list_appointments] returns nothing.  Otherwise it invoices the
    appointment at the head of that listing: a stored appointment, for the
    patient that appointment names, who is stored too; no listed
    appointment has a larger datetime, and none with the same datetime has
    a smaller id.  The invoice is committed by [generate_invoice] on these
    two ids.  The handler then refreshes the invoice tree: it returns when
    every listed invoice has an amount, and raises a TypeError, the
    invoice staying committed, otherwise; so it always raises when the
    amount dialog was cancelled. *)
Theorem create_invoice_dialog_invoices_listed_appointment
    (s : @store real) (amount : option real) (now : string) :
  ∃ la,
    list_appointments s = Ok (la, s) ∧
    (la = [] →
       create_invoice_dialog amount now s = Returned NoAppointmentsWarning s) ∧
    (∀ row rest, la = row :: rest →
       ∃ a p iid s',
         rows (appointments s) !! appointment_row_id row = Some a ∧
         rows (patients s) !! a_patient_id a = Some p ∧
         (∀ r, r ∈ rest →
            text_le r.1.1.2 row.1.1.2 ∧
            (text_le row.1.1.2 r.1.1.2 →
             appointment_row_id row < appointment_row_id r)) ∧
         generate_invoice (a_patient_id a) (appointment_row_id row) amount now s
           = Ok (Some iid, s') ∧
         left_by (create_invoice_dialog amount now s) = s' ∧
         rows (invoices s') !! iid
           = Some (Invoice (a_patient_id a) (appointment_row_id row) amount
                           (Some now) 0) ∧
         (invoice_tree_renders s' →
            create_invoice_dialog amount now s = Returned Silent s') ∧
         (¬ invoice_tree_renders s' →
            create_invoice_dialog amount now s = Raised TypeError s') ∧
         (amount = None →
            create_invoice_dialog amount now s = Raised TypeError s')).
Proof.
  exists (select_appointments s). split; [done|].
  split; [apply create_invoice_dialog_empty|].
  intros row rest Hl.
  destruct (select_appointments_head s row rest Hl) as (a & p & Ha & Hp).
  exists a, p, (new_rowid (invoices s)). eexists.
  do 2 (split; [done|]).
  split.
  { pose proof (select_appointments_stable s) as Hs. rewrite Hl in Hs.
    apply StronglySorted_cons in Hs as [Hall _].
    rewrite Forall_forall in Hall. exact Hall. }
  rewrite generate_invoice_eq. split; [done|].
  split; [by eapply create_invoice_dialog_head|].
  split; [simpl; by rewrite lookup_insert_eq|].
  pose proof (create_invoice_dialog_outcome amount now s row rest a Hl Ha)
    as Hout. simpl in Hout.
  assert (Hno : ¬ invoice_tree_renders
                    (insert_invoice (a_patient_id a) (appointment_row_id row)
                                    amount (Some now) s).2 →
                create_invoice_dialog amount now s
                = Raised TypeError
                    (insert_invoice (a_patient_id a) (appointment_row_id row)
                                    amount (Some now) s).2).
  { intros Hn. by destruct Hout as [[Hr _] | [_ ->]]. }
  split; [|split; [exact Hno|]].
  - intros Hr. by destruct Hout as [[_ ->] | [Hn _]].
  - intros ->. apply Hno. rewrite invoice_tree_renders_iff. intros Hall.
    destruct (Hall (new_rowid (invoices s))
                   (Invoice (a_patient_id a) (appointment_row_id row) None
                            (Some now) 0)) as [x Hx].
    + simpl. apply lookup_insert_eq.
    + by exists p.
    + discriminate.
Qed.

End MoreHandlers.

(** ** Histories of the presentation layer *)

Section UiHistories.

Context {real : Type}.
Variable strip : string → string.
Implicit Types (s : @store real).

Lemma ui_run_snoc (us : list (@ui_op real)) u s :
  ui_run strip (us ++ [u]) s = ui_step strip (ui_run strip us s) u.
Proof. unfold ui_run. by rewrite foldl_app. Qed.

(** A handler acts on the store as no call or as one call of the core
    operations. *)
Lemma ui_step_is_run s (u : @ui_op real) :
  ∃ ops, ui_step strip s u = run ops s.
Proof.
  destruct u as [n1 n2|fn ln dob phone|doctor dt reason
                |sel confirm notes presc now|amount now|sel]; cbn [ui_step].
  - by exists [SeedSampleData n1 n2].
  - destruct (decide (strip fn = EmptyString ∨ strip ln = EmptyString))
      as [Hbad|Hok].
    + exists []. by rewrite handle_add_patient_invalid.
    + exists [AddPatient (Some (strip fn)) (Some (strip ln)) (Some (strip dob))
                         (Some (strip phone)) (Some EmptyString)].
      rewrite handle_add_patient_valid; [done|tauto..].
  - destruct (select_patients s) as [|row rest] eqn:Hl.
    + exists []. by rewrite new_appointment_dialog_empty.
    + exists [AddAppointment (patient_row_id row) doctor dt
                             (py_or reason "Consultation")].
      by erewrite new_appointment_dialog_head.
  - destruct sel as [|[[[[[aid patient] doctor] dt] reason] status] rest];
      [by exists []|].
    destruct confirm; [|by exists []].
    destruct (rows (appointments s) !! aid) as [a|] eqn:Ha.
    + exists [AddConsultation aid (a_patient_id a) doctor (py_or notes "")
                              (py_or presc "") now].
      by erewrite open_appointment_actions_present.
    + exists []. by rewrite open_appointment_actions_absent.
  - destruct (select_appointments s) as [|row rest] eqn:Hl.
    + exists []. by rewrite create_invoice_dialog_empty.
    + destruct (select_appointments_head s row rest Hl) as (a & p & Ha & Hp).
      exists [GenerateInvoice (a_patient_id a) (appointment_row_id row)
                              amount now].
      by erewrite create_invoice_dialog_head.
  - by exists [ToggleInvoicePaid sel].
Qed.

Lemma ui_run_is_run (us : list (@ui_op real)) s :
  ∃ ops, ui_run strip us s = run ops s.
Proof.
  induction us as [|u us IH] using rev_ind; [by exists []|].
  destruct IH as (ops & Hops).
  destruct (ui_step_is_run (ui_run strip us s) u) as (ops' & Hops').
  exists (ops ++ ops'). by rewrite ui_run_snoc, Hops', Hops, run_app.
Qed.

(** X17: whatever the user does, the store changes only through the core
    operations: every history of launches and handler calls leaves the
    store that some history of core calls leaves.  The facts shown for the
    latter hold for it: the paid flags are 0 or 1, and the ids of each
    table are 1, ..., n. *)
Theorem ui_history_is_core_history (us : list (@ui_op real)) :
  (∀ s, ∃ ops, ui_run strip us s = run ops s) ∧
  paid_flags_ok (ui_run strip us (init_db None)) ∧
  statuses_sound (ui_run strip us (init_db None)) ∧
  sequential (patients (ui_run strip us (init_db None))) ∧
  sequential (appointments (ui_run strip us (init_db None))) ∧
  sequential (consultations (ui_run strip us (init_db None))) ∧
  sequential (invoices (ui_run strip us (init_db None))).
Proof.
  split; [intros s; apply ui_run_is_run|].
  destruct (ui_run_is_run us (init_db None)) as (ops & ->).
  split; [apply run_paid_flags_ok|]. split; [apply run_statuses_sound|].
  apply run_sequential.
Qed.

(** *** References *)

Lemma sound_insert_patient (p : patient) s :
  referentially_sound s → referentially_sound (insert_patient p s).2.
Proof.
  intros (HA & HC & HI). split; [|split]; [|exact HC|exact HI].
  intros aid a Ha. destruct (HA aid a Ha) as [q Hq]. exists q.
  by apply (insert_row_persist p (patients s)).
Qed.

Lemma sound_insert_appointment pid doctor dt reason s :
  references_patient s pid →
  referentially_sound s →
  referentially_sound (insert_appointment pid doctor dt reason s).2.
Proof.
  intros Hpid (HA & HC & HI). split; [|split]; simpl.
  - intros aid a [[_ <-] | [_ Ha]]%lookup_insert_Some; [done|].
    by apply (HA aid a).
  - intros cid c Hc. destruct (HC cid c Hc) as (a & Ha & Hpa & Hst).
    exists a. split; [|done].
    by apply (insert_row_persist _ (appointments s)).
  - intros iid i Hi. destruct (HI iid i Hi) as (a & Ha & Hpa).
    exists a. split; [|done].
    by apply (insert_row_persist _ (appointments s)).
Qed.

(** Completing appointment [aid] keeps every appointment's patient and
    every completed status. *)
Lemma lookup_completed (m : gmap Z appointment) aid k x :
  m !! k = Some x →
  ∃ x', alter (set_status (Some "completed"%string)) aid m !! k = Some x' ∧
        a_patient_id x' = a_patient_id x ∧
        (a_status x = Some "completed"%string ∨ k = aid →
         a_status x' = Some "completed"%string).
Proof.
  intros Hx. destruct (decide (k = aid)) as [->|Hne].
  - exists (set_status (Some "completed"%string) x).
    by rewrite lookup_alter_eq, Hx.
  - exists x. rewrite lookup_alter_ne by done. split; [done|].
    split; [done|]. by intros [?|?].
Qed.

Lemma sound_record_consultation aid a doctor notes presc created s :
  rows (appointments s) !! aid = Some a →
  referentially_sound s →
  referentially_sound
    (update_status_completed aid
       (insert_consultation
          (Consultation aid (a_patient_id a) doctor notes presc created) s).2).
Proof.
  intros Haid (HA & HC & HI). split; [|split]; simpl.
  - intros k x [[-> (y & Hy & ->)] | [_ Hx]]%lookup_alter_Some.
    + by apply (HA k y).
    + by apply (HA k x).
  - intros cid c [[_ <-] | [_ Hc]]%lookup_insert_Some; simpl.
    + destruct (lookup_completed _ aid aid a Haid) as (x' & Hx' & Hp & Hst).
      exists x'. split; [done|]. split; [done|]. apply Hst. by right.
    + destruct (HC cid c Hc) as (x & Hx & Hp & Hst).
      destruct (lookup_completed _ aid _ x Hx) as (x' & Hx' & Hp' & Hst').
      exists x'. split; [done|]. split; [congruence|]. apply Hst'. by left.
  - intros iid i Hi. destruct (HI iid i Hi) as (x & Hx & Hp).
    destruct (lookup_completed _ aid _ x Hx) as (x' & Hx' & Hp' & _).
    exists x'. split; [done|]. congruence.
Qed.

Lemma sound_insert_invoice aid a amount issued s :
  rows (appointments s) !! aid = Some a →
  referentially_sound s →
  referentially_sound (insert_invoice (a_patient_id a) aid amount issued s).2.
Proof.
  intros Haid (HA & HC & HI). split; [exact HA|]. split; [exact HC|]. simpl.
  intros iid i [[_ <-] | [_ Hi]]%lookup_insert_Some; simpl.
  - by exists a.
  - by apply (HI iid i).
Qed.

Lemma sound_update_paid v iid s :
  referentially_sound s → referentially_sound (update_paid v iid s).
Proof.
  intros (HA & HC & HI). split; [exact HA|]. split; [exact HC|]. simpl.
  intros k i [[-> (y & Hy & ->)] | [_ Hi]]%lookup_alter_Some.
  - by apply (HI k y).
  - by apply (HI k i).
Qed.

Lemma sound_seeded n1 n2 s :
  rows (patients s) = ∅ →
  sequential (patients s) →
  referentially_sound s →
  referentially_sound (seeded n1 n2 s).
Proof.
  intros Hempty Hp (HA & HC & HI).
  assert (Hnone : ∀ k a, rows (appointments s) !! k = Some a → False).
  { intros k a Ha. destruct (HA k a Ha) as [q Hq].
    by rewrite Hempty, lookup_empty in Hq. }
  assert (Hseq0 : seq (patients s) = 0).
  { rewrite <- (proj1 Hp), Hempty, map_size_empty. done. }
  pose proof (sequential_insert
    (Patient (Some "Alice") (Some "Wong") (Some "1985-04-12")
             (Some "+441234567890") (Some "Allergic to penicillin"))%string
    _ Hp) as Hp1.
  pose proof (sequential_new_rowid _ Hp) as Hk1.
  pose proof (sequential_new_rowid _ Hp1) as Hk2. simpl in Hk2.
  split; [|split]; simpl.
  - intros k x Hx. unfold references_patient. simpl.
    rewrite Hk2, Hk1, Hseq0. simpl.
    apply lookup_insert_Some in Hx as [[_ <-] | [_ Hx]]; simpl.
    { eexists. apply lookup_insert_eq. }
    apply lookup_insert_Some in Hx as [[_ <-] | [_ Hx]]; simpl.
    { eexists. rewrite lookup_insert_ne by lia. apply lookup_insert_eq. }
    destruct (Hnone k x Hx).
  - intros cid c Hc. destruct (HC cid c Hc) as (a & Ha & _).
    destruct (Hnone _ a Ha).
  - intros iid i Hi. destruct (HI iid i Hi) as (a & Ha & _).
    destruct (Hnone _ a Ha).
Qed.

Lemma ui_step_sound s (u : @ui_op real) :
  sequential (patients s) →
  referentially_sound s → referentially_sound (ui_step strip s u).
Proof.
  intros Hp Hs.
  destruct u as [n1 n2|fn ln dob phone|doctor dt reason
                |sel confirm notes presc now|amount now|sel]; cbn [ui_step].
  - destruct (decide (rows (patients s) = ∅)) as [Hempty|Hne].
    + rewrite seed_sample_data_fresh by done. by apply sound_seeded.
    + by rewrite seed_sample_data_guard.
  - destruct (decide (strip fn = EmptyString ∨ strip ln = EmptyString))
      as [Hbad|Hok].
    + by rewrite handle_add_patient_invalid.
    + rewrite handle_add_patient_valid by tauto. by apply sound_insert_patient.
  - destruct (select_patients s) as [|row rest] eqn:Hl.
    + by rewrite new_appointment_dialog_empty.
    + erewrite new_appointment_dialog_head by done.
      apply sound_insert_appointment; [|done].
      by destruct (select_patients_head s row rest Hl).
  - destruct sel as [|[[[[[aid patient] doctor] dt] reason] status] rest];
      [done|].
    destruct confirm; [|done].
    destruct (rows (appointments s) !! aid) as [a|] eqn:Ha.
    + erewrite open_appointment_actions_present by done.
      by apply sound_record_consultation.
    + by rewrite open_appointment_actions_absent.
  - destruct (select_appointments s) as [|row rest] eqn:Hl.
    + by rewrite create_invoice_dialog_empty.
    + destruct (select_appointments_head s row rest Hl) as (a & p & Ha & Hq).
      erewrite create_invoice_dialog_head by done.
      by apply sound_insert_invoice.
  - destruct sel as [|iid sel]; [done|].
    destruct (rows (invoices s) !! iid) as [inv|] eqn:Hinv.
    + rewrite (toggle_invoice_paid_present iid sel s inv Hinv).
      by apply sound_update_paid.
    + by rewrite (toggle_invoice_paid_absent iid sel s Hinv).
Qed.

Lemma ui_run_sound (us : list (@ui_op real)) :
  referentially_sound (ui_run strip us (init_db None)).
Proof.
  induction us as [|u us IH] using rev_ind.
  - split; [|split]; intros k x; simpl; by rewrite lookup_empty.
  - rewrite ui_run_snoc. apply ui_step_sound; [|done].
    destruct (ui_run_is_run us (init_db None)) as (ops & ->).
    apply run_sequential.
Qed.

(** X18: through the presentation layer no reference is left dangling.
    In every store that launches and handler calls built from the empty
    store, each appointment names a stored patient, each consultation and
    each invoice names a stored appointment and that appointment's own
    patient, and an appointment with a consultation is completed. *)
Theorem ui_history_keeps_references (us : list (@ui_op real)) :
  let s := ui_run strip us (init_db None) in
  (∀ aid a, rows (appointments s) !! aid = Some a →
     is_Some (rows (patients s) !! a_patient_id a)) ∧
  (∀ cid c, rows (consultations s) !! cid = Some c →
     ∃ a, rows (appointments s) !! c_appointment_id c = Some a ∧
          a_patient_id a = c_patient_id c ∧
          a_status a = Some "completed"%string) ∧
  (∀ iid i, rows (invoices s) !! iid = Some i →
     ∃ a, rows (appointments s) !! i_appointment_id i = Some a ∧
          a_patient_id a = i_patient_id i).
Proof. apply ui_run_sound. Qed.

Section Completeness.

Variable radd : real → real → real.
Variable rzero : real.

(** X19: so in such a store the joined listings leave nothing out: each of
    [list_appointments], [list_consultations] and [list_invoices] returns
    as many rows as the dashboard counts, one for every stored id. *)
Theorem ui_history_listings_complete (us : list (@ui_op real)) :
  let s := ui_run strip us (init_db None) in
  ∃ la lc li np na nc ni total,
    list_appointments s = Ok (la, s) ∧
    list_consultations s = Ok (lc, s) ∧
    list_invoices s = Ok (li, s) ∧
    refresh_admin radd rzero s = Ok (np, na, nc, ni, total, s) ∧
    Z.of_nat (length la) = na ∧
    Z.of_nat (length lc) = nc ∧
    Z.of_nat (length li) = ni ∧
    appointment_row_id <$> la ≡ₚ (map_to_list (rows (appointments s))).*1 ∧
    consultation_row_id <$> lc ≡ₚ (map_to_list (rows (consultations s))).*1 ∧
    invoice_row_id <$> li ≡ₚ (map_to_list (rows (invoices s))).*1.
Proof.
  intros s. destruct (ui_run_sound us) as (HA & HC & HI). fold s in HA, HC, HI.
  destruct (list_appointments_joined s) as (la & Hla & _ & _ & _ & Ja).
  destruct (list_consultations_joined s) as (lc & Hlc & _ & _ & _ & Jc).
  destruct (list_invoices_joined s) as (li & Hli & _ & _ & _ & Ji).
  destruct Ja as [Pa La]; [exact HA|].
  destruct Jc as [Pc Lc].
  { intros cid c Hc. destruct (HC cid c Hc) as (a & Ha & <- & _).
    exact (HA _ a Ha). }
  destruct Ji as [Pi Li].
  { intros iid i Hi. destruct (HI iid i Hi) as (a & Ha & <-).
    exact (HA _ a Ha). }
  exists la, lc, li. eexists _, _, _, _, _.
  do 3 (split; [done|]). split; [apply refresh_admin_eq|].
  rewrite length_fmap in La. rewrite length_fmap in Lc.
  rewrite length_fmap in Li. rewrite La, Lc, Li. done.
Qed.

End Completeness.

(** *** Names *)

Lemma named_insert_patient (p : patient) s f l :
  first_name p = Some f → last_name p = Some l →
  f ≠ EmptyString → l ≠ EmptyString →
  patients_named s → patients_named (insert_patient p s).2.
Proof.
  intros Hf Hl Hf0 Hl0 Hs pid q. simpl.
  intros [[_ <-] | [_ Hq]]%lookup_insert_Some; [by exists f, l|].
  by apply (Hs pid q).
Qed.

Lemma ui_step_named s (u : @ui_op real) :
  patients_named s → patients_named (ui_step strip s u).
Proof.
  intros Hs.
  destruct u as [n1 n2|fn ln dob phone|doctor dt reason
                |sel confirm notes presc now|amount now|sel]; cbn [ui_step].
  - destruct (seed_sample_data_cases n1 n2 s) as [-> | ->]; [done|].
    cbn [after]. intros pid q Hq. simpl in Hq.
    apply lookup_insert_Some in Hq as [[_ <-] | [_ Hq]];
      [by eexists _, _|].
    apply lookup_insert_Some in Hq as [[_ <-] | [_ Hq]];
      [by eexists _, _|].
    by apply (Hs pid q).
  - destruct (decide (strip fn = EmptyString ∨ strip ln = EmptyString))
      as [Hbad|Hok].
    + by rewrite handle_add_patient_invalid.
    + rewrite handle_add_patient_valid by tauto.
      eapply named_insert_patient; [done|done|tauto|tauto|done].
  - destruct (select_patients s) as [|row rest] eqn:Hl.
    + by rewrite new_appointment_dialog_empty.
    + by erewrite new_appointment_dialog_head.
  - destruct sel as [|[[[[[aid patient] doctor] dt] reason] status] rest];
      [done|].
    destruct confirm; [|done].
    destruct (rows (appointments s) !! aid) as [a|] eqn:Ha.
    + by erewrite open_appointment_actions_present.
    + by rewrite open_appointment_actions_absent.
  - destruct (select_appointments s) as [|row rest] eqn:Hl.
    + by rewrite create_invoice_dialog_empty.
    + destruct (select_appointments_head s row rest Hl) as (a & p & Ha & Hq).
      by erewrite create_invoice_dialog_head.
  - intros pid q. destruct (toggle_keeps_other_tables sel s) as (-> & _).
    apply Hs.
Qed.

(** X20: the form's validation holds for the whole table.  In every store
    that launches and handler calls built from the empty store, each
    patient has a first and a last name that is neither NULL nor empty, so
    the full name the listings show is never NULL. *)
Theorem ui_history_patients_named
    (us : list (@ui_op real)) (pid : Z) (p : patient) :
  rows (patients (ui_run strip us (init_db None))) !! pid = Some p →
  ∃ f l,
    first_name p = Some f ∧ last_name p = Some l ∧
    f ≠ EmptyString ∧ l ≠ EmptyString ∧
    full_name p = Some ((f +:+ " ") +:+ l).
Proof.
  revert pid p.
  assert (Hn : patients_named (ui_run strip us (init_db None))).
  { induction us as [|u us IH] using rev_ind.
    - intros pid p. simpl. by rewrite lookup_empty.
    - rewrite ui_run_snoc. by apply ui_step_named. }
  intros pid p Hp. destruct (Hn pid p Hp) as (f & l & Hf & Hl & Hf0 & Hl0).
  exists f, l. do 4 (split; [done|]). unfold full_name. by rewrite Hf, Hl.
Qed.

End UiHistories.

(** * The handlers on a concrete history *)

Section UiDemo.

Local Open Scope string_scope.

Example demo_ui_list_appointments :
  list_appointments demo_ui_store =
  Ok ([ (3, Some "Carol Diaz", Some "Dr. Smith", Some "2024-02-01T09:30:00",
         Some "Consultation", Some "completed");
        (2, Some "Bob Smith", Some "Dr. Jones", Some "2024-01-01T10:00:01",
         Some "Follow-up", Some "scheduled");
        (1, Some "Alice Wong", Some "Dr. Patel", Some "2024-01-01T10:00:00",
         Some "Routine checkup", Some "scheduled") ],
      demo_ui_store).
Proof. vm_compute. reflexivity. Qed.

Example demo_ui_list_consultations :
  list_consultations demo_ui_store =
  Ok ([ (1, Some "Carol Diaz", Some "Dr. Smith", Some "2024-02-01T10:00:00",
         Some "rest") ],
      demo_ui_store).
Proof. vm_compute. reflexivity. Qed.

Example demo_ui_list_invoices :
  list_invoices demo_ui_store =
  Ok ([ (1, Some "Carol Diaz", Some (75 # 1)%Q, Some "2024-02-01T10:05:00", 1) ],
      demo_ui_store).
Proof. vm_compute. reflexivity. Qed.

Example demo_ui_refresh_admin :
  refresh_admin Qplus 0%Q demo_ui_store
  = Ok (3, 3, 1, 1, (75 # 1)%Q, demo_ui_store).
Proof. vm_compute. reflexivity. Qed.

(** Invoice 2 of [demo_store] has no amount and its patient is stored:
    the toggle commits the flag of invoice 3 and then raises in its
    closing refresh of the invoice tree. *)
Example demo_toggle_raises_after_commit :
  ∃ s', toggle_invoice_paid [3] demo_store = Raised TypeError s' ∧
        i_paid <$> rows (invoices s') !! 3 = Some 1.
Proof. eexists. split; [vm_compute; reflexivity|]. vm_compute. reflexivity. Qed.

(** Every invoice of [demo_ui_store] has an amount: the toggle returns. *)
Example demo_ui_toggle_returns :
  ∃ s', toggle_invoice_paid [1] demo_ui_store = Returned tt s' ∧
        i_paid <$> rows (invoices s') !! 1 = Some 0.
Proof. eexists. split; [vm_compute; reflexivity|]. vm_compute. reflexivity. Qed.

(** The amount dialog cancelled: the invoice is stored without amount and
    the handler raises; the invoice tree cannot be filled any more. *)
Example demo_ui_invoice_without_amount :
  ∃ s', create_invoice_dialog None "2024-02-02T09:00:00" demo_ui_store
          = Raised TypeError s' ∧
        i_amount <$> rows (invoices s') !! 2 = Some None ∧
        refresh_invoice_list s' = Raise TypeError.
Proof.
  eexists. split; [vm_compute; reflexivity|].
  split; vm_compute; reflexivity.
Qed.

(** Through the core operations alone a consultation can name an
    appointment id before an appointment gets it: the appointment is then
    scheduled although a consultation is recorded against it. *)
Example consultation_before_appointment :
  let s := run [ AddConsultation 1 1 None None None "2024-01-01";
                 AddAppointment 1 None None None ] (init_db (real := Q) None) in
  a_status <$> rows (appointments s) !! 1 = Some (Some "scheduled") ∧
  c_appointment_id <$> rows (consultations s) !! 1 = Some 1.
Proof. vm_compute. done. Qed.

End UiDemo.

(** * Instances of the further statements that carry a hypothesis *)

Lemma add_consultation_unknown_appointment_witness :
  rows (appointments demo_store) !! 9 = None ∧
  ∃ cid s',
    add_consultation 9 1 None None None "2024-03-01T08:00:00" demo_store
      = Ok (Some cid, s') ∧
    appointments s' = appointments demo_store.
Proof.
  split; [vm_compute; reflexivity|].
  destruct (add_consultation_unknown_appointment demo_store 9 1 None None None
              "2024-03-01T08:00:00")
    as (cid & s' & Hr & _ & Ha & _); [vm_compute; reflexivity|].
  by exists cid, s'.
Defined.

Lemma generate_invoice_listed_unpaid_witness :
  is_Some (rows (patients demo_store) !! 2) ∧
  ∃ iid s' li,
    generate_invoice 2 8 (Some (20 # 1)%Q) "2024-03-01T08:00:00" demo_store
      = Ok (Some iid, s') ∧
    list_invoices s' = Ok (li, s') ∧
    (iid, Some "Bob Smith"%string, Some (20 # 1)%Q,
     Some "2024-03-01T08:00:00"%string, 0) ∈ li.
Proof.
  split; [vm_compute; eauto|].
  destruct (generate_invoice_listed_unpaid demo_store 2 8 (Some (20 # 1)%Q)
              "2024-03-01T08:00:00"
              (Patient (Some "Bob") (Some "Smith") (Some "1990-11-03")
                       (Some "+447700900123") (Some "Diabetic"))%string)
    as (iid & s' & li & Hr & _ & Hl & Hin); [vm_compute; reflexivity|].
  by exists iid, s', li.
Defined.

Lemma toggle_invoice_paid_changes_flag_only_witness :
  is_Some (rows (invoices demo_store) !! 3) ∧
  ∃ s',
    left_by (toggle_invoice_paid [3; 1] demo_store) = s' ∧
    i_paid <$> rows (invoices s') !! 3 = Some 1 ∧
    rows (invoices s') !! 1 = rows (invoices demo_store) !! 1.
Proof.
  split; [vm_compute; eauto|].
  destruct (toggle_invoice_paid_changes_flag_only Qplus 0%Q demo_store 3 [1]
              (Invoice 1 1 (Some (1 # 2)%Q) (Some "2024-02-01T10:06:00"%string) 0))
    as (s' & Hr & _ & _ & Hflag & Hother & _); [vm_compute; reflexivity|].
  exists s'. split; [done|]. split; [by rewrite Hflag|]. by apply Hother.
Defined.

Lemma reachable_statuses_sound_witness :
  is_Some (rows (appointments (run demo_history (init_db None))) !! 3) ∧
  ∃ cid c,
    rows (consultations (run demo_history (init_db None))) !! cid = Some c ∧
    c_appointment_id c = 3.
Proof.
  split; [vm_compute; eauto|].
  apply (reachable_statuses_sound demo_history 3
           (Appointment 3 (Some "Dr. Smith") (Some "2024-02-01T09:30:00")
                        (Some "Consultation") (Some "completed"))%string);
    vm_compute; reflexivity.
Defined.

Lemma seed_sample_data_ids_match_witness :
  rows (patients (run [] (init_db (real := Q) None))) = ∅ ∧
  ∃ s1,
    seed_sample_data "2024-01-01T10:00:00" "2024-01-01T10:00:01"
                     (run [] (init_db (real := Q) None)) = Ok (tt, s1) ∧
    size (rows (patients s1)) = 2%nat.
Proof.
  split; [reflexivity|].
  destruct (seed_sample_data_ids_match (real := Q) []
              "2024-01-01T10:00:00" "2024-01-01T10:00:01")
    as (s1 & a1 & a2 & Hr & Hp & _); [reflexivity|].
  exists s1. split; [done|]. rewrite Hp. reflexivity.
Defined.

Lemma ui_history_patients_named_witness :
  is_Some (rows (patients demo_ui_store) !! 3) ∧
  ∃ f l, f ≠ EmptyString ∧ l ≠ EmptyString ∧
         full_name <$> rows (patients demo_ui_store) !! 3
           = Some (Some ((f +:+ " ") +:+ l)).
Proof.
  split; [vm_compute; eauto|].
  destruct (ui_history_patients_named (λ x, x) demo_ui_history 3
              (Patient (Some "Carol") (Some "Diaz") (Some "1979-02-28")
                       (Some "") (Some ""))%string)
    as (f & l & Hf & Hl & Hf0 & Hl0 & Hfull); [vm_compute; reflexivity|].
  exists f, l. do 2 (split; [done|]).
  change (rows (patients demo_ui_store) !! 3)
    with (rows (patients (ui_run (λ x, x) demo_ui_history (init_db None))) !! 3).
  replace (rows (patients (ui_run (λ x, x) demo_ui_history (init_db None))) !! 3)
    with (Some (Patient (Some "Carol") (Some "Diaz") (Some "1979-02-28")
                        (Some "") (Some ""))%string)
    by (vm_compute; reflexivity).
  simpl. by rewrite Hfull.
Defined.
